(** * Argus: the token-sequencing storytelling loop of [Argus.py]

    A shallow embedding of [src/Argus.py] and the properties of its
    tokenizer, paragraph extraction, context window, HTTP clients and
    driver loop. *)

From Stdlib Require Import ZArith NArith QArith Lia Bool Ascii String.
From stdpp Require Import base option list gmap.

Local Open Scope Z_scope.

(** ** Text

    A Python [str] is a sequence of Unicode code points. *)

Abbreviation char := N.
Abbreviation str := (list N).

(** ASCII literals of the source, as code points. *)
Definition str_of (s : string) : str :=
  map N_of_ascii (list_ascii_of_string s).

Arguments str_of : simpl never.

Definition PERIOD : char := 46%N.
Definition SPACE : char := 32%N.
Definition NEWLINE : char := 10%N.

(** ** The character categories of [re]

    [\w] and [\s] are tables of the interpreter's Unicode database, not of
    this repository; the tokenizer is parameterised by them. *)
Class CharClasses := {
  is_word : char → bool;   (* \w *)
  is_space : char → bool   (* \s *)
}.

(** The categories under [re.ASCII]: [\w] is [[a-zA-Z0-9_]] and [\s] is
    [[ \t\n\r\f\v]]. *)
Definition ascii_word (c : char) : bool :=
  ((48 <=? c) && (c <=? 57) || (65 <=? c) && (c <=? 90)
   || (97 <=? c) && (c <=? 122) || (c =? 95))%N.

Definition ascii_space (c : char) : bool :=
  ((c =? 32) || (9 <=? c) && (c <=? 13))%N.

Definition ascii_classes : CharClasses :=
  {| is_word := ascii_word; is_space := ascii_space |}.

(** ** Tokenizer: [re.findall(r'\b\w+\b|\s+|[^\w\s]', paragraph)] *)
Section Tokenizer.
Context {cc : CharClasses}.

Definition word_at (o : option char) : bool :=
  match o with Some c => is_word c | None => false end.

(** [\b]: the characters on the two sides of the position differ in
    being word characters; outside the string counts as non-word. *)
Definition at_boundary (prev next : option char) : bool :=
  xorb (word_at prev) (word_at next).

(** The rest of [\w+\b] once a word character [prev] has been taken:
    greedily take more word characters, and give characters back until
    [\b] holds. Returns the further characters matched and the rest. *)
Fixpoint word_rest (prev : char) (s : str) : option (str * str) :=
  let stop :=
    if at_boundary (Some prev) (head s) then Some ([], s) else None in
  match s with
  | c :: s' =>
      if is_word c then
        match word_rest c s' with
        | Some (m, rest) => Some (c :: m, rest)
        | None => stop
        end
      else stop
  | [] => stop
  end.

(** First alternative, [\b\w+\b], at a position preceded by [prev]. *)
Definition alt_word (prev : option char) (s : str) : option (str * str) :=
  match s with
  | c :: s' =>
      if at_boundary prev (Some c) && is_word c then
        '(m, rest) ← word_rest c s'; Some (c :: m, rest)
      else None
  | [] => None
  end.

(** Longest prefix of characters satisfying [p], and the rest. *)
Fixpoint span (p : char → bool) (s : str) : str * str :=
  match s with
  | c :: s' =>
      if p c then let '(m, rest) := span p s' in (c :: m, rest)
      else ([], s)
  | [] => ([], [])
  end.

(** Second alternative, [\s+]: nothing follows it in the pattern, so the
    greedy match is the match. *)
Definition alt_space (s : str) : option (str * str) :=
  match span is_space s with
  | ([], _) => None
  | (m, rest) => Some (m, rest)
  end.

(** Third alternative, [[^\w\s]]: one character of neither category. *)
Definition alt_other (s : str) : option (str * str) :=
  match s with
  | c :: s' =>
      if negb (is_word c) && negb (is_space c) then Some ([c], s') else None
  | [] => None
  end.

(** The alternatives are tried in the order they are written. *)
Definition match_here (prev : option char) (s : str) : option (str * str) :=
  match alt_word prev s with
  | Some r => Some r
  | None =>
      match alt_space s with
      | Some r => Some r
      | None => alt_other s
      end
  end.

(** The scan of [findall]: at each position the pattern is tried; a match
    is collected and the scan resumes at its end; where nothing matches
    the scan moves one character on, and that character is in no token.
    [prev] is the character before the position. No alternative matches
    the empty string, so each round consumes a character and [fuel] need
    not exceed the length of the text. *)
Fixpoint findall_from (fuel : nat) (prev : option char) (s : str) : list str :=
  match fuel with
  | O => []
  | S fuel' =>
      match s with
      | [] => []
      | c :: s' =>
          match match_here prev s with
          | Some (m, rest) =>
              m :: findall_from fuel' (from_option Some prev (last m)) rest
          | None => findall_from fuel' (Some c) s'
          end
      end
  end.

Definition findall (s : str) : list str :=
  findall_from (length s) None s.

End Tokenizer.


(** ** Python string and list operations used by the source *)

(** [sub] occurs in [s] at offset 0. *)
Fixpoint starts_with (sub s : str) : bool :=
  match sub, s with
  | [], _ => true
  | a :: sub', b :: s' => (a =? b)%N && starts_with sub' s'
  | _ :: _, [] => false
  end.

(** The lowest offset at which [sub] occurs in [s], counted from [pos], or
    -1; [s] is the text from offset [pos] on. *)
Fixpoint find_at (sub s : str) (pos : Z) : Z :=
  if starts_with sub s then pos
  else match s with
       | [] => -1
       | _ :: s' => find_at sub s' (pos + 1)
       end.

(** [s.find(sub, start)] for a start offset that is not negative. *)
Definition str_find (s sub : str) (start : nat) : Z :=
  if (length s <? start)%nat then -1
  else find_at sub (drop start s) (Z.of_nat start).

(** The highest offset at which [sub] occurs in [s], counted from [pos],
    or -1. *)
Fixpoint rfind_at (sub s : str) (pos : Z) : Z :=
  let here := if starts_with sub s then pos else -1 in
  match s with
  | [] => here
  | _ :: s' =>
      let later := rfind_at sub s' (pos + 1) in
      if later =? -1 then here else later
  end.

(** [s.rfind(sub)] *)
Definition str_rfind (s sub : str) : Z := rfind_at sub s 0.

(** [s[:stop]]: a negative [stop] counts from the end, and both ends are
    clipped to the text. *)
Definition slice_to {A} (s : list A) (stop : Z) : list A :=
  if stop <? 0 then take (Z.to_nat (Z.of_nat (length s) + stop)) s
  else take (Z.to_nat stop) s.

(** [l[-n:]] for [n > 0]: the last [n] items, or all of a shorter list. *)
Definition slice_last {A} (n : nat) (l : list A) : list A :=
  drop (length l - n) l.

(** [sep.join(l)] *)
Fixpoint join (sep : str) (l : list str) : str :=
  match l with
  | [] => []
  | [x] => x
  | x :: l' => x ++ sep ++ join sep l'
  end.

(** ** Paragraph extraction (the body of [generate_paragraph] after the
    call to the model, lines 117-129) *)
Definition paragraph_of (new_text : str) : str :=
  let paragraph_end := str_find new_text [PERIOD; SPACE] 150 in
  if paragraph_end =? -1 then
    let last_period := str_rfind new_text [PERIOD] in
    if negb (last_period =? -1) then slice_to new_text (last_period + 1)
    else new_text
  else slice_to new_text (paragraph_end + 1).

(** ** Context window (lines 200-202 of the driver loop) *)
Definition append_context (context_paragraphs : list str) (paragraph : str)
  : list str :=
  let context_paragraphs := context_paragraphs ++ [paragraph] in
  if (5 <? length context_paragraphs)%nat then slice_last 5 context_paragraphs
  else context_paragraphs.

(** ** Prompt *)
Definition SYSTEM_PROMPT : str :=
  str_of "You are Hermes, the divine messenger of the Greek gods, telling an endless story. You are narrating a continuous, flowing tale about gods, heroes, and mythological events. This is a pure monologue - you are never to switch to dialogue format or include other characters speaking with quotation marks and names. You will never include instructions or commands. You must stay in character as Hermes the storyteller at all times. You will never acknowledge that you are an AI or language model. You will continue your mythological narrative indefinitely, transitioning smoothly between different myths and legends as needed.".

Definition USER_PROMPT : str :=
  str_of "Hermes, please continue telling your endless mythological story without any breaks or character switches.".

Definition format_prompt (context_paragraphs : list str) : str :=
  let context :=
    match context_paragraphs with
    | [] => []
    | _ => join [NEWLINE; NEWLINE] context_paragraphs
    end in
  SYSTEM_PROMPT ++ [NEWLINE; NEWLINE] ++ USER_PROMPT
    ++ [NEWLINE; NEWLINE] ++ context.

(** ** The outside world *)

(** A value decoded from JSON: a string, or anything else (null, a number,
    a boolean, an array, an object). *)
Inductive pyval :=
| PyStr (s : str)
| PyNonStr.

(** What [response.json()] gives: an error, a value without [get], or a
    dict. *)
Inductive body :=
| NotJson
| JsonNonObject
| JsonObject (fields : gmap str pyval).

Inductive failure := Timeout | ConnectionError | OtherError.

(** The outcome of [requests.post]: an exception of [requests] with its
    message, or a response. *)
Inductive reply :=
| Failed (kind : failure) (msg : str)
| Response (status_code : Z) (text : str) (json : body).

(** What is posted to the word server: the connectivity probe (word
    "test", sequence 0, session "test-connection") or the payload of
    [send_word_to_server]; the timestamp is left out. *)
Inductive post :=
| Probe
| Word (word : str) (sequence : Z) (session_id : str).

(** The globals as they stand once the command line has been read, and the
    environment of one run. *)
Record world := {
  ENABLE_POSTING : bool;
  MODEL_NAME : str;
  (** reply of the model server to the k-th call, given its prompt *)
  ollama : nat → str → reply;
  (** reply of the word server to the k-th post *)
  word_server : nat → post → reply;
  (** value of [time.time() < end_time] at the k-th test of the loop *)
  before_deadline : nat → bool;
  (** the session id drawn by [uuid.uuid4()] *)
  uuid4 : str;
  (** Ctrl-C arrives once this many blocking or printing steps are done;
      [None]: it never arrives *)
  sigint : option nat
}.

(** What is printed. Diagnostics are kept by kind, not by wording. *)
Inductive output :=
| Token (word : str)               (* print(word, end="") *)
| FailureDot                       (* print(".", end="") *)
| Separator                        (* print("\n", end="") *)
| OllamaStatusError (status_code : Z)
| OllamaCallError (msg : option str)
| ResponseText (text : str)
| SendStatusWarning (status_code : Z)
| SendTimeoutWarning
| SendConnectionWarning
| SendError (msg : str)
| TestingConnection
| ConnectedOk
| ProbeStatusWarning (status_code : Z)
| ContinuingAnyway
| ProbeFailed (msg : str)
| ContinuingLocal
| Starting (session_id : str)
| UsingModel (model : str)
| WillRunFor (minutes : Z)
| RunningIndefinitely
| BlankLine
| StoppedByUser
| Generated (total_paragraphs : Z)
| SentWords (sequence_number : Z) (session_id : str).

(** The variables of [paragraph_based_storytelling] that the loop
    assigns. *)
Record locals := {
  sequence_number : Z;
  context_paragraphs : list str;
  total_paragraphs : Z
}.

Record state := {
  pending : option nat;        (* steps left before Ctrl-C is delivered *)
  prompts : list str;          (* calls made to the model server *)
  posts : list post;           (* posts made to the word server *)
  stdout : list output;
  frame : locals
}.

(** The exceptions that leave a function of the program: Ctrl-C, a model
    reply without [find], a token that stdout cannot encode, and a delay
    that [time.sleep] does not take. *)
Inductive exn :=
| KeyboardInterrupt
| AttributeError
| UnicodeEncodeError
| ValueError
| OverflowError.

(** A Python float, as [--delay] (type=float) reads it: a number of
    seconds, an infinity or a NaN. *)
Inductive float :=
| Seconds (q : Q)
| Infinity (negative : bool)
| NaN.

(** The default of [word_delay] and of [--delay]: 0.25. *)
Definition DEFAULT_DELAY : float := Seconds (1 # 4).

(** [Running]: the fuel given to the driver loop ran out while the loop
    was still going. *)
Inductive result (A : Type) :=
| Ret (a : A)
| Raise (e : exn)
| Running.
Arguments Ret {A} a.
Arguments Raise {A} e.
Arguments Running {A}.

Definition M (A : Type) : Type := state → result A * state.

Global Instance M_ret : MRet M := λ A a st, (Ret a, st).

Global Instance M_bind : MBind M := λ A B f m st,
  match m st with
  | (Ret a, st') => f a st'
  | (Raise e, st') => (Raise e, st')
  | (Running, st') => (Running, st')
  end.

Definition raise {A} (e : exn) : M A := λ st, (Raise e, st).

Definition out_of_fuel {A} : M A := λ st, (Running, st).

(** [try: body  except KeyboardInterrupt: handler] *)
Definition except_KeyboardInterrupt (body handler : M ()) : M () := λ st,
  match body st with
  | (Raise KeyboardInterrupt, st') => handler st'
  | r => r
  end.

Definition set_pending (p : option nat) (st : state) : state :=
  {| pending := p; prompts := prompts st; posts := posts st;
     stdout := stdout st; frame := frame st |}.

Definition add_prompt (p : str) (st : state) : state :=
  {| pending := pending st; prompts := prompts st ++ [p]; posts := posts st;
     stdout := stdout st; frame := frame st |}.

Definition add_post (p : post) (st : state) : state :=
  {| pending := pending st; prompts := prompts st; posts := posts st ++ [p];
     stdout := stdout st; frame := frame st |}.

Definition add_output (o : output) (st : state) : state :=
  {| pending := pending st; prompts := prompts st; posts := posts st;
     stdout := stdout st ++ [o]; frame := frame st |}.

Definition set_frame (v : locals) (st : state) : state :=
  {| pending := pending st; prompts := prompts st; posts := posts st;
     stdout := stdout st; frame := v |}.

(** A point at which the interpreter may deliver Ctrl-C: the signal is
    raised once, when its count of steps is used up. *)
Definition tick : M () := λ st,
  match pending st with
  | Some O => (Raise KeyboardInterrupt, set_pending None st)
  | Some (S n) => (Ret (), set_pending (Some n) st)
  | None => (Ret (), st)
  end.

Definition write (o : output) : M () := λ st, (Ret (), add_output o st).

(** A surrogate code point (U+D800 to U+DFFF). A Python string can hold
    one alone, and [json] decodes the escape of one into it. *)
Definition is_surrogate (c : char) : bool :=
  ((55296 <=? c) && (c <=? 57343))%N.

(** The text can be encoded in UTF-8, the encoding of stdout: it holds no
    surrogate. *)
Definition encodable (s : str) : bool :=
  forallb (λ c, negb (is_surrogate c)) s.

(** Whether stdout takes what is printed. A token is a piece of the
    model's reply, which is decoded from JSON and may hold any code point.
    The other texts are fixed, or are numbers, the session id, the model
    name, the texts of the servers' replies as [requests] decodes them and
    the messages of its exceptions; these are taken to be encodable. *)
Definition printable (o : output) : bool :=
  match o with
  | Token word => encodable word
  | _ => true
  end.

(** [print(...)]: Ctrl-C may arrive; a text that stdout cannot encode
    raises [UnicodeEncodeError] and nothing of it is written. *)
Definition print (o : output) : M () :=
  tick;;
  if printable o then write o else raise UnicodeEncodeError.

(** What [time.sleep] raises for a delay, if anything. The delay is
    turned into a count of nanoseconds on 64 bits: a NaN is a
    [ValueError], a count that does not fit is an [OverflowError], and a
    negative delay is a [ValueError]. *)
Definition sleep_error (secs : float) : option exn :=
  match secs with
  | NaN => Some ValueError
  | Infinity _ => Some OverflowError
  | Seconds q =>
      let ns := (q * inject_Z (10 ^ 9))%Q in
      if Qle_bool (inject_Z (- 2 ^ 63)) ns
         && Qle_bool ns (inject_Z (2 ^ 63 - 1))
      then if Qle_bool 0 q then None else Some ValueError
      else Some OverflowError
  end.

(** [time.sleep(secs)]: a delay that is not accepted raises at once;
    otherwise the call blocks, and Ctrl-C may arrive while it does. *)
Definition sleep (secs : float) : M () :=
  match sleep_error secs with
  | Some e => raise e
  | None => tick
  end.

Definition get_frame : M locals := λ st, (Ret (frame st), st).

Definition assign (f : locals → locals) : M () :=
  λ st, (Ret (), set_frame (f (frame st)) st).

Section Program.
Context {cc : CharClasses}.
Variable w : world.

Definition ollama_replies (prompt : str) : M reply := λ st,
  (Ret (ollama w (length (prompts st)) prompt), add_prompt prompt st).

Definition word_server_replies (p : post) : M reply := λ st,
  (Ret (word_server w (length (posts st)) p), add_post p st).

(** [requests.post(OLLAMA_URL, json=payload)] *)
Definition post_ollama (prompt : str) : M reply :=
  tick;; ollama_replies prompt.

(** [requests.post(POST_URL, headers=HEADERS, json=payload, timeout=5)] *)
Definition post_word_server (p : post) : M reply :=
  tick;; word_server_replies p.

(** Any [Exception] inside the [try] ends in the last handler, which
    prints and returns the empty string; so do a body that is not JSON
    and a JSON value without [get]. *)
Definition generate_with_ollama (prompt : str) (max_tokens : Z) : M pyval :=
  response ← post_ollama prompt;
  match response with
  | Response status_code text json =>
      if status_code =? 200 then
        match json with
        | JsonObject response_json =>
            mret (default (PyStr []) (response_json !! str_of "response"))
        | JsonNonObject | NotJson =>
            print (OllamaCallError None);; mret (PyStr [])
        end
      else
        print (OllamaStatusError status_code);;
        print (ResponseText text);;
        mret (PyStr [])
  | Failed _ msg =>
      print (OllamaCallError (Some msg));; mret (PyStr [])
  end.

Definition send_word_to_server (word : str) (sequence_number : Z)
    (session_id : str) : M bool :=
  response ← post_word_server (Word word sequence_number session_id);
  match response with
  | Response status_code text _ =>
      if status_code =? 200 then mret true
      else
        print (SendStatusWarning status_code);;
        print (ResponseText text);;
        mret false
  | Failed Timeout _ => print SendTimeoutWarning;; mret false
  | Failed ConnectionError _ => print SendConnectionWarning;; mret false
  | Failed OtherError msg => print (SendError msg);; mret false
  end.

(** The [for word in words] loop; [sequence_number] is the local of
    [display_and_send_paragraph_word_by_word]. *)
Fixpoint for_word_in (words : list str) (sequence_number : Z)
    (session_id : str) (word_delay : float) : M Z :=
  match words with
  | [] => mret sequence_number
  | word :: words' =>
      (if ENABLE_POSTING w then
         send_success ← send_word_to_server word sequence_number session_id;
         if negb send_success then print FailureDot else mret ()
       else mret ());;
      let sequence_number := sequence_number + 1 in
      print (Token word);;
      sleep word_delay;;
      for_word_in words' sequence_number session_id word_delay
  end.

Definition display_and_send_paragraph_word_by_word (paragraph : str)
    (sequence_number : Z) (session_id : str) (word_delay : float) : M Z :=
  let words := findall paragraph in
  for_word_in words sequence_number session_id word_delay.

(** A model reply whose text is not a string has no [find]. *)
Definition generate_paragraph (context : list str) : M str :=
  let prompt := format_prompt context in
  new_text ← generate_with_ollama prompt 300;
  match new_text with
  | PyStr new_text => mret (paragraph_of new_text)
  | PyNonStr => raise AttributeError
  end.

(** One round of the [while] loop (lines 191-210). An assignment takes
    place only when the call on its right returns. *)
Definition loop_body (session_id : str) (word_delay : float) : M () :=
  v ← get_frame;
  paragraph ← generate_paragraph (context_paragraphs v);
  n ← display_and_send_paragraph_word_by_word
        paragraph (sequence_number v) session_id word_delay;
  assign (λ v, {| sequence_number := n;
                  context_paragraphs := context_paragraphs v;
                  total_paragraphs := total_paragraphs v |});;
  assign (λ v, {| sequence_number := sequence_number v;
                  context_paragraphs :=
                    append_context (context_paragraphs v) paragraph;
                  total_paragraphs := total_paragraphs v |});;
  assign (λ v, {| sequence_number := sequence_number v;
                  context_paragraphs := context_paragraphs v;
                  total_paragraphs := total_paragraphs v + 1 |});;
  print Separator;;
  v ← get_frame;
  n ← display_and_send_paragraph_word_by_word
        [NEWLINE] (sequence_number v) session_id word_delay;
  assign (λ v, {| sequence_number := n;
                  context_paragraphs := context_paragraphs v;
                  total_paragraphs := total_paragraphs v |}).

(** [while time.time() < end_time], the [k]-th test first. *)
Fixpoint while_before_end (fuel : nat) (k : nat) (session_id : str)
    (word_delay : float) : M () :=
  match fuel with
  | O => out_of_fuel
  | S fuel' =>
      if before_deadline w k then
        loop_body session_id word_delay;;
        while_before_end fuel' (S k) session_id word_delay
      else mret ()
  end.

(** The connectivity test before the run (lines 143-166). *)
Definition test_connection : M () :=
  print TestingConnection;;
  response ← post_word_server Probe;
  match response with
  | Response status_code text _ =>
      if status_code =? 200 then print ConnectedOk
      else
        print (ProbeStatusWarning status_code);;
        print (ResponseText text);;
        print ContinuingAnyway
  | Failed _ msg => print (ProbeFailed msg);; print ContinuingLocal
  end.

Definition paragraph_based_storytelling (fuel : nat)
    (max_time_minutes : option Z) (word_delay : float) : M () :=
  (if ENABLE_POSTING w then test_connection else mret ());;
  let session_id := uuid4 w in
  assign (λ _, {| sequence_number := 0; context_paragraphs := [];
                  total_paragraphs := 0 |});;
  print (Starting session_id);;
  print (UsingModel (MODEL_NAME w));;
  match max_time_minutes with
  | Some m => if m =? 0 then print RunningIndefinitely
              else print (WillRunFor m)
  | None => print RunningIndefinitely
  end;;
  print BlankLine;;
  except_KeyboardInterrupt
    (while_before_end fuel O session_id word_delay)
    (print StoppedByUser);;
  v ← get_frame;
  print (Generated (total_paragraphs v));;
  print (SentWords (sequence_number v) session_id).

(** The state in which the program starts. *)
Definition start : state :=
  {| pending := sigint w; prompts := []; posts := []; stdout := [];
     frame := {| sequence_number := 0; context_paragraphs := [];
                 total_paragraphs := 0 |} |}.

End Program.

(** ** Observations on a run *)

Definition word_posts (l : list post) : list (str * Z * str) :=
  omap (λ p, match p with
             | Word word n sid => Some (word, n, sid)
             | Probe => None
             end) l.

Definition displayed (l : list output) : list str :=
  omap (λ o, match o with Token word => Some word | _ => None end) l.

Definition reported (l : list output) : list (Z * str) :=
  omap (λ o, match o with
             | SentWords n sid => Some (n, sid)
             | _ => None
             end) l.

(** ** A small world to run the program in

    The model always answers "Hi there"; the word server accepts every
    second post and times out on the others; the deadline passes after two
    rounds. *)
Definition hi_there : reply :=
  Response 200 []
    (JsonObject {[ str_of "response" := PyStr (str_of "Hi there") ]}).

Definition small_world (posting : bool) (ctrl_c : option nat) : world :=
  {| ENABLE_POSTING := posting;
     MODEL_NAME := str_of "hermes3";
     ollama := λ _ _, hi_there;
     word_server := λ k _,
       if Nat.even k then Response 200 [] NotJson
       else Failed Timeout (str_of "timed out");
     before_deadline := λ k, (k <? 2)%nat;
     uuid4 := str_of "0b5c";
     sigint := ctrl_c |}.

Arguments word_posts : simpl never.
Arguments displayed : simpl never.
Arguments reported : simpl never.

(** The i-th word posted carries sequence number i and the session id. *)
Definition numbered (session_id : str) (l : list post) : Prop :=
  ∀ i word n sid,
    word_posts l !! i = Some (word, n, sid) →
    n = Z.of_nat i ∧ sid = session_id.

(** The payloads of the words of a paragraph from [sequence_number] on. *)
Fixpoint payloads (words : list str) (sequence_number : Z) (session_id : str)
  : list post :=
  match words with
  | [] => []
  | word :: words' =>
      Word word sequence_number session_id
        :: payloads words' (sequence_number + 1) session_id
  end.

(** The value [generate_with_ollama] makes of a reply, and whether
    [send_word_to_server] takes a reply for a success. *)
Definition generated (r : reply) : pyval :=
  match r with
  | Response status_code _ (JsonObject fields) =>
      if status_code =? 200 then default (PyStr []) (fields !! str_of "response")
      else PyStr []
  | _ => PyStr []
  end.

Definition accepted (r : reply) : bool :=
  match r with
  | Response status_code _ _ => status_code =? 200
  | Failed _ _ => false
  end.

(** The scan is at a position where [\b\w+\b] is not blocked: a word
    character is never directly after another word character. *)
Definition unblocked {cc : CharClasses} (prev : option char) (s : str) : Prop :=
  word_at prev = true → word_at (head s) = false.

(** ** Predicates on states and programs *)

(** [hoare P m Q E]: run from a state in [P], [m] returns a value and a
    state in [Q], or stops without a value in a state in [E]. *)
Definition hoare {A} (P : state → Prop) (m : M A)
    (Q : A → state → Prop) (E : state → Prop) : Prop :=
  ∀ st, P st →
    match m st with
    | (Ret a, st') => Q a st'
    | (_, st') => E st'
    end.

(** A property of states that printing and the delivery of the signal do
    not touch. *)
Definition quiet_stable (P : state → Prop) : Prop :=
  ∀ st, P st →
    (∀ p, P (set_pending p st)) ∧ (∀ o, P (add_output o st)).

(** A property of states that looks at the posts and the frame only. *)
Definition posts_frame_only (P : state → Prop) : Prop :=
  ∀ st st', posts st' = posts st → frame st' = frame st → P st → P st'.

Section Invariants.
Variable w : world.
Variable session_id : str.

(** The posts so far are numbered and [n] is the next number. *)
Definition next_is (n : Z) (f : locals) (st : state) : Prop :=
  numbered session_id (posts st)
  ∧ n = Z.of_nat (length (word_posts (posts st)))
  ∧ frame st = f.

Definition numbered_so_far (st : state) : Prop :=
  numbered session_id (posts st).

(** With posting on, the loop of a paragraph posts numbered words; with
    posting off, it posts nothing. Either way the frame is not touched. *)
Definition steady (n : Z) (f : locals) (st : state) : Prop :=
  if ENABLE_POSTING w then next_is n f st
  else word_posts (posts st) = [] ∧ frame st = f.

Definition steady_so_far (st : state) : Prop :=
  if ENABLE_POSTING w then numbered_so_far st
  else word_posts (posts st) = [].

(** The frame's sequence number is the next number of the run. *)
Definition in_step (st : state) : Prop :=
  steady (sequence_number (frame st)) (frame st) st.

End Invariants.

(** From [st0], the prompts [qs] were sent to the model, the posts [ps]
    were made and the words [ws] displayed, no total was reported, the
    frame is [f], and no Ctrl-C is due. *)
Definition calm_since (st0 : state) (f : locals) (qs : list str)
    (ps : list post) (ws : list str) (st : state) : Prop :=
  pending st = None
  ∧ prompts st = prompts st0 ++ qs
  ∧ frame st = f
  ∧ posts st = posts st0 ++ ps
  ∧ displayed (stdout st) = displayed (stdout st0) ++ ws
  ∧ reported (stdout st) = reported (stdout st0).

(** What two runs are compared on: calls to the model, the frame, the
    words displayed and the totals reported. *)
Definition obs (st : state)
  : list str * locals * list str * list (Z * str) :=
  (prompts st, frame st, displayed (stdout st), reported (stdout st)).

(** From calm states that look the same, [m1] and [m2] give the same
    result and leave calm states that look the same. *)
Definition agree {A} (m1 m2 : M A) : Prop :=
  ∀ st1 st2,
    pending st1 = None → pending st2 = None → obs st1 = obs st2 →
    (m1 st1).1 = (m2 st2).1
    ∧ pending (m1 st1).2 = None ∧ pending (m2 st2).2 = None
    ∧ obs (m1 st1).2 = obs (m2 st2).2.

(** [m] never stops for lack of fuel. *)
Definition finishes {A} (m : M A) : Prop := ∀ st, (m st).1 ≠ Running.

(** A property of states that no request, no delivery of the signal and
    no print other than that of the total undoes. *)
Definition grows (P : state → Prop) : Prop :=
  ∀ st, P st →
    (∀ p, P (set_pending p st))
    ∧ (∀ q, P (add_prompt q st))
    ∧ (∀ p, P (add_post p st))
    ∧ (∀ o, reported [o] = [] → P (add_output o st)).

(** What the driver keeps at every point of a run before the summary: the
    window holds at most five paragraphs, the counters are not negative,
    the sequence number is at most the number of tokens displayed, and no
    total has been reported. *)
Definition in_bounds (st : state) : Prop :=
  (length (context_paragraphs (frame st)) ≤ 5)%nat
  ∧ 0 ≤ total_paragraphs (frame st)
  ∧ 0 ≤ sequence_number (frame st) ≤ Z.of_nat (length (displayed (stdout st)))
  ∧ reported (stdout st) = [].

(** Inside [display_and_send_paragraph_word_by_word]: the frame is [f] and
    the local sequence number is [n]. *)
Definition counting (n : Z) (f : locals) (st : state) : Prop :=
  in_bounds st ∧ frame st = f
  ∧ 0 ≤ n ≤ Z.of_nat (length (displayed (stdout st))).

(** In a run that Ctrl-C has not reached: the sequence number is the
    number of tokens displayed, the paragraph counter is the number of
    calls made to the model, and no total has been reported. *)
Definition tallied (st : state) : Prop :=
  pending st = None
  ∧ sequence_number (frame st) = Z.of_nat (length (displayed (stdout st)))
  ∧ total_paragraphs (frame st) = Z.of_nat (length (prompts st))
  ∧ reported (stdout st) = [].

(** A world whose model answers with status 200 and a JSON object whose
    "response" field is null. *)
Definition null_world : world :=
  {| ENABLE_POSTING := true;
     MODEL_NAME := str_of "hermes3";
     ollama := λ _ _,
       Response 200 [] (JsonObject {[ str_of "response" := PyNonStr ]});
     word_server := λ _ _, Response 200 [] NotJson;
     before_deadline := λ k, (k <? 2)%nat;
     uuid4 := str_of "0b5c";
     sigint := None |}.

(** The number of failure marks printed. *)
Definition failure_dots (l : list output) : nat :=
  length (omap (λ o, match o with FailureDot => Some () | _ => None end) l).

Arguments failure_dots : simpl never.

(** The number of words of a paragraph whose post the word server does
    not accept, when [k] posts were made before and the first word has
    number [n]. *)
Fixpoint refused (w : world) (words : list str) (k : nat) (n : Z)
    (session_id : str) : nat :=
  match words with
  | [] => 0
  | word :: words' =>
      (if accepted (word_server w k (Word word n session_id)) then 0 else 1)
      + refused w words' (S k) (n + 1) session_id
  end.

(** ** The command line (lines 220-247)

    The module's globals, the parsed arguments, and the updates the main
    block makes before it calls [paragraph_based_storytelling]. The
    notice printed for --disable-posting is left out. *)
Module Main.

Record globals := {
  OLLAMA_URL : str;
  POST_URL : str;
  AUTH_TOKEN : str;
  HEADERS : gmap str str;
  ENABLE_POSTING : bool
}.

(** [f"Bearer {AUTH_TOKEN}"] *)
Definition bearer (token : str) : str := str_of "Bearer " ++ token.

(** The globals as the module defines them (lines 7-25). *)
Definition defaults : globals :=
  {| OLLAMA_URL := str_of "http://localhost:11434/api/generate";
     POST_URL := [];
     AUTH_TOKEN := [];
     HEADERS :=
       {[ str_of "Content-Type" := str_of "application/json";
          str_of "Authorization" := bearer [] ]};
     ENABLE_POSTING := true |}.

(** What [parser.parse_args()] gives; an option that is not on the command
    line has its default. *)
Record args := {
  time : option Z;
  delay : float;
  model : str;
  ollama_url : str;
  disable_posting : bool;
  post_url : str;
  auth_token : str
}.

(** A string is true in a condition when it is not empty. *)
Definition truthy (s : str) : bool :=
  match s with [] => false | _ => true end.

Definition configure (a : args) (g : globals) : globals :=
  let g :=
    if truthy (ollama_url a) then
      {| OLLAMA_URL := ollama_url a; POST_URL := POST_URL g;
         AUTH_TOKEN := AUTH_TOKEN g; HEADERS := HEADERS g;
         ENABLE_POSTING := ENABLE_POSTING g |}
    else g in
  let g :=
    if disable_posting a then
      {| OLLAMA_URL := OLLAMA_URL g; POST_URL := POST_URL g;
         AUTH_TOKEN := AUTH_TOKEN g; HEADERS := HEADERS g;
         ENABLE_POSTING := false |}
    else g in
  let g :=
    if truthy (post_url a) then
      {| OLLAMA_URL := OLLAMA_URL g; POST_URL := post_url a;
         AUTH_TOKEN := AUTH_TOKEN g; HEADERS := HEADERS g;
         ENABLE_POSTING := ENABLE_POSTING g |}
    else g in
  if truthy (auth_token a) then
    {| OLLAMA_URL := OLLAMA_URL g; POST_URL := POST_URL g;
       AUTH_TOKEN := auth_token a;
       HEADERS := <[ str_of "Authorization" := bearer (auth_token a) ]>
                    (HEADERS g);
       ENABLE_POSTING := ENABLE_POSTING g |}
  else g.

End Main.

(** * Properties *)

Section TokenizerFacts.
Context {cc : CharClasses}.

Lemma word_rest_total prev s :
  is_word prev = true →
  ∃ m rest, word_rest prev s = Some (m, rest) ∧ m ++ rest = s
    ∧ word_at (last (prev :: m)) = true ∧ word_at (head rest) = false.
Proof.
  revert prev. induction s as [|c s IH]; intros prev Hp.
  - exists [], []. cbn. unfold at_boundary. cbn. rewrite Hp. done.
  - cbn [word_rest]. destruct (is_word c) eqn:Hc.
    + destruct (IH c Hc) as (m & rest & -> & Hm & Hl & Hr).
      exists (c :: m), rest. split_and!; [done|by rewrite <- Hm|done|done].
    + exists [], (c :: s). unfold at_boundary. cbn. rewrite Hp, Hc. done.
Qed.

Lemma span_spec p s m rest :
  span p s = (m, rest) →
  m ++ rest = s ∧ Forall (λ c, p c = true) m
    ∧ from_option p false (head rest) = false.
Proof.
  revert m rest. induction s as [|c s IH]; intros m rest; cbn.
  - intros [= <- <-]. by split_and!.
  - destruct (p c) eqn:Hc.
    + destruct (span p s) as [m' rest'] eqn:Hs. intros [= <- <-].
      destruct (IH _ _ eq_refl) as (<- & Hall & Hrest).
      split_and!; [done|by constructor|done].
    + intros [= <- <-]. cbn. by rewrite Hc.
Qed.

Hypothesis word_not_space : ∀ c, is_word c = true → is_space c = false.

Lemma match_here_total prev c s :
  unblocked prev (c :: s) →
  ∃ m rest, match_here prev (c :: s) = Some (m, rest)
    ∧ m ≠ [] ∧ m ++ rest = c :: s ∧ unblocked (last m) rest.
Proof.
  intros Hinv. unfold match_here, alt_word.
  destruct (is_word c) eqn:Hc.
  - assert (word_at prev = false) as Hprev.
    { destruct (word_at prev) eqn:E; [|done]. specialize (Hinv E).
      cbn in Hinv. congruence. }
    unfold at_boundary. rewrite Hprev. cbn [word_at xorb]. rewrite Hc.
    cbn [andb].
    destruct (word_rest_total c s Hc) as (m & rest & -> & Hm & Hl & Hr).
    exists (c :: m), rest. cbn. split_and!; [done|done|by rewrite Hm|].
    by intros _.
  - rewrite andb_false_r. unfold alt_space. cbn [span].
    destruct (is_space c) eqn:Hsp.
    + destruct (span is_space s) as [m rest] eqn:Hs.
      destruct (span_spec _ _ _ _ Hs) as (<- & Hall & _).
      exists (c :: m), rest. split_and!; [done|done|done|].
      intros Hw. exfalso.
      assert (Forall (λ c, is_space c = true) (c :: m)) as Hall'
        by by constructor.
      destruct (last (c :: m)) as [d|] eqn:Hd; [|done].
      apply last_Some_elem_of in Hd.
      rewrite Forall_forall in Hall'. specialize (Hall' _ Hd).
      cbn in Hw. apply word_not_space in Hw. congruence.
    + cbn. rewrite Hc, Hsp. cbn.
      exists [c], s. split_and!; [done|done|done|].
      intros Hw. cbn in Hw. congruence.
Qed.

Lemma findall_from_concat fuel prev s :
  (length s ≤ fuel)%nat → unblocked prev s →
  concat (findall_from fuel prev s) = s.
Proof.
  revert prev s. induction fuel as [|fuel IH]; intros prev s Hlen Hinv.
  - destruct s; [done|cbn in Hlen; lia].
  - destruct s as [|c s]; [done|]. cbn [findall_from].
    destruct (match_here_total prev c s Hinv)
      as (m & rest & -> & Hne & Hm & Hinv').
    cbn [concat]. rewrite IH.
    + done.
    + apply (f_equal length) in Hm. rewrite length_app in Hm.
      cbn in Hm, Hlen. destruct m; [done|]. cbn in Hm. lia.
    + destruct (last m) eqn:Hl; [done|].
      apply last_None in Hl. done.
Qed.

End TokenizerFacts.

(** ** The tokenizer loses no character *)

Lemma ascii_word_not_space (c : char) :
  ascii_word c = true → ascii_space c = false.
Proof.
  unfold ascii_word, ascii_space.
  repeat match goal with
         | |- context [(?a <=? ?b)%N] => destruct (N.leb_spec a b)
         | |- context [(?a =? ?b)%N] => destruct (N.eqb_spec a b)
         end; cbn; (done || lia).
Qed.

(** C1: for every text, the tokens that [findall] produces for the
    pattern of the source, concatenated in order, are the text again: no
    character is dropped or added. The categories [\w] and [\s] are any two
    that share no character, as those of [re] are. *)
Theorem tokens_concat_is_text (cc : CharClasses) (text : str) :
  (∀ c, is_word c = true → is_space c = false) →
  concat (findall text) = text.
Proof.
  intros Hdisj. unfold findall. apply findall_from_concat; [done|lia|].
  by intros [=].
Qed.

Lemma tokens_concat_is_text_witness :
  (∀ c, ascii_word c = true → ascii_space c = false)
  ∧ concat (@findall ascii_classes (str_of "Zeus hurled a bolt."))
    = str_of "Zeus hurled a bolt.".
Proof.
  split; [exact ascii_word_not_space|].
  apply (tokens_concat_is_text ascii_classes (str_of "Zeus hurled a bolt.")).
  exact ascii_word_not_space.
Defined.

(** ** [find], [rfind] and slicing *)

Lemma find_at_unfold sub s pos :
  find_at sub s pos =
    if starts_with sub s then pos
    else match s with [] => -1 | _ :: s' => find_at sub s' (pos + 1) end.
Proof. by destruct s. Qed.

Lemma find_at_first sub s pos i :
  starts_with sub (drop i s) = true →
  (∀ j, (j < i)%nat → starts_with sub (drop j s) = false) →
  find_at sub s pos = pos + Z.of_nat i.
Proof.
  revert pos i. induction s as [|c s IH]; intros pos i Hi Hlt;
    rewrite find_at_unfold.
  - rewrite drop_nil in Hi. rewrite Hi.
    destruct i; [lia|]. specialize (Hlt O ltac:(lia)). cbn in Hlt. congruence.
  - destruct i as [|i].
    + cbn in Hi. rewrite Hi. lia.
    + pose proof (Hlt O ltac:(lia)) as H0. cbn [drop] in H0. rewrite H0.
      rewrite (IH (pos + 1) i); [lia|done|].
      intros j Hj. apply (Hlt (S j)). lia.
Qed.

Lemma find_at_none sub s pos :
  (∀ i, starts_with sub (drop i s) = false) → find_at sub s pos = -1.
Proof.
  revert pos. induction s as [|c s IH]; intros pos Hno;
    rewrite find_at_unfold; pose proof (Hno O) as H0; cbn [drop] in H0;
    rewrite H0; [done|].
  apply IH. intros i. apply (Hno (S i)).
Qed.

Lemma rfind_at_none sub s pos :
  (∀ i, starts_with sub (drop i s) = false) → rfind_at sub s pos = -1.
Proof.
  revert pos. induction s as [|c s IH]; intros pos Hno; cbn [rfind_at];
    pose proof (Hno O) as H0; cbn [drop] in H0; rewrite H0; [done|].
  by rewrite IH; [|intros i; apply (Hno (S i))].
Qed.

Lemma rfind_at_last sub s pos q :
  0 ≤ pos →
  starts_with sub (drop q s) = true →
  (∀ j, (q < j)%nat → starts_with sub (drop j s) = false) →
  rfind_at sub s pos = pos + Z.of_nat q.
Proof.
  revert pos q. induction s as [|c s IH]; intros pos q Hpos Hq Hgt.
  - specialize (Hgt (S q) ltac:(lia)). rewrite drop_nil in Hq, Hgt. congruence.
  - cbn [rfind_at]. destruct q as [|q].
    + rewrite rfind_at_none; [|intros i; apply (Hgt (S i)); lia].
      cbn in Hq. cbn. rewrite Hq. lia.
    + rewrite (IH (pos + 1) q); [| lia | done |].
      * destruct (Z.eqb_spec (pos + 1 + Z.of_nat q) (-1)); lia.
      * intros j Hj. apply (Hgt (S j)). lia.
Qed.

Lemma starts_with_1 (a : char) (s : str) i :
  starts_with [a] (drop i s) = true ↔ s !! i = Some a.
Proof.
  rewrite <- (Nat.add_0_r i) at 2. rewrite <- lookup_drop.
  destruct (drop i s) as [|b t]; cbn; [done|].
  rewrite andb_true_r, N.eqb_eq. split; [by intros ->|by intros [= ->]].
Qed.

Lemma starts_with_2 (a b : char) (s : str) i :
  starts_with [a; b] (drop i s) = true ↔ s !! i = Some a ∧ s !! S i = Some b.
Proof.
  rewrite <- (Nat.add_0_r i) at 2. rewrite <- (Nat.add_1_r i).
  rewrite <- !lookup_drop.
  destruct (drop i s) as [|x [|y t]]; cbn.
  - split; [done|by intros [[=] _]].
  - rewrite andb_false_r. split; [done|by intros [_ [=]]].
  - rewrite andb_true_r, andb_true_iff, !N.eqb_eq.
    split; [by intros [-> ->]|by intros [[= ->] [= ->]]].
Qed.

Lemma slice_to_S {A} (s : list A) (n : nat) :
  slice_to s (Z.of_nat n + 1) = take (S n) s.
Proof.
  unfold slice_to. destruct (Z.ltb_spec (Z.of_nat n + 1) 0); [lia|].
  f_equal. lia.
Qed.

(** ** Paragraph extraction *)

Lemma paragraph_of_first_period_space (text : str) (p : nat) :
  (150 ≤ p)%nat →
  text !! p = Some PERIOD → text !! S p = Some SPACE →
  (∀ j, (150 ≤ j < p)%nat →
        ¬ (text !! j = Some PERIOD ∧ text !! S j = Some SPACE)) →
  paragraph_of text = take (S p) text.
Proof.
  intros Hp Hdot Hsp Hfirst. unfold paragraph_of, str_find.
  pose proof (lookup_lt_Some _ _ _ Hsp) as Hlen.
  destruct (Nat.ltb_spec (length text) 150); [lia|].
  rewrite (find_at_first _ _ _ (p - 150)).
  - replace (Z.of_nat 150 + Z.of_nat (p - 150)) with (Z.of_nat p) by lia.
    destruct (Z.eqb_spec (Z.of_nat p) (-1)); [lia|]. apply slice_to_S.
  - rewrite drop_drop. replace (150 + (p - 150))%nat with p by lia.
    by apply starts_with_2.
  - intros j Hj. rewrite drop_drop.
    destruct (starts_with _ _) eqn:E; [|done].
    apply starts_with_2 in E. destruct (Hfirst (150 + j)%nat); [lia|done].
Qed.

Lemma least_occurrence sub (s : str) i :
  starts_with sub (drop i s) = true →
  ∃ j, (j ≤ i)%nat ∧ starts_with sub (drop j s) = true
       ∧ ∀ k, (k < j)%nat → starts_with sub (drop k s) = false.
Proof.
  revert i. induction s as [|c s IH]; intros i Hi.
  - exists O. rewrite drop_nil in Hi. split_and!; [lia|done|lia].
  - destruct (starts_with sub (c :: s)) eqn:H0.
    + exists O. split_and!; [lia|done|lia].
    + destruct i as [|i]; [cbn in Hi; congruence|].
      destruct (IH i Hi) as (j & Hj & Hocc & Hleast).
      exists (S j). split_and!; [lia|done|].
      intros [|k] Hk; [done|]. apply Hleast. lia.
Qed.

(** C3: when the raw text has a period directly followed by a space with
    the period at offset 150 or later, there is a first such period, at
    some offset [p], and the extracted paragraph is the text up to and
    including it, [text[0..p+1)]. *)
Theorem paragraph_ends_at_first_period_space (text : str) (p0 : nat) :
  (150 ≤ p0)%nat →
  text !! p0 = Some PERIOD → text !! S p0 = Some SPACE →
  ∃ p, (150 ≤ p ≤ p0)%nat
       ∧ text !! p = Some PERIOD ∧ text !! S p = Some SPACE
       ∧ (∀ j, (150 ≤ j < p)%nat →
               ¬ (text !! j = Some PERIOD ∧ text !! S j = Some SPACE))
       ∧ paragraph_of text = take (S p) text.
Proof.
  intros Hp0 Hdot Hsp.
  destruct (least_occurrence [PERIOD; SPACE] (drop 150 text) (p0 - 150))
    as (j & Hj & Hocc & Hleast).
  { rewrite drop_drop. replace (150 + (p0 - 150))%nat with p0 by lia.
    by apply starts_with_2. }
  rewrite drop_drop in Hocc. apply starts_with_2 in Hocc as [Hd Hs].
  assert (∀ k, (150 ≤ k < 150 + j)%nat →
            ¬ (text !! k = Some PERIOD ∧ text !! S k = Some SPACE)) as Hfirst.
  { intros k Hk Hocc. apply starts_with_2 in Hocc.
    specialize (Hleast (k - 150)%nat ltac:(lia)). rewrite drop_drop in Hleast.
    replace (150 + (k - 150))%nat with k in Hleast by lia. congruence. }
  exists (150 + j)%nat. split_and!; [lia|lia|done|done|done|].
  by apply paragraph_of_first_period_space; [lia|..].
Qed.

Lemma paragraph_ends_at_first_period_space_witness :
  (150 ≤ 156)%nat
  ∧ (replicate 150 97%N ++ str_of ". Then. And") !! 156%nat = Some PERIOD
  ∧ (replicate 150 97%N ++ str_of ". Then. And") !! 157%nat = Some SPACE
  ∧ ∃ p, (150 ≤ p ≤ 156)%nat
         ∧ paragraph_of (replicate 150 97%N ++ str_of ". Then. And")
           = take (S p) (replicate 150 97%N ++ str_of ". Then. And").
Proof.
  split_and!; [lia|reflexivity|reflexivity|].
  destruct (paragraph_ends_at_first_period_space
              (replicate 150 97%N ++ str_of ". Then. And") 156
              ltac:(lia) eq_refl eq_refl)
    as (p & Hp & _ & _ & _ & Hpar).
  by exists p.
Defined.

Lemma no_period_space_find (text : str) :
  (∀ j, (150 ≤ j)%nat →
        ¬ (text !! j = Some PERIOD ∧ text !! S j = Some SPACE)) →
  str_find text [PERIOD; SPACE] 150 = -1.
Proof.
  intros Hno. unfold str_find.
  destruct (Nat.ltb_spec (length text) 150); [done|].
  apply find_at_none. intros i. rewrite drop_drop.
  destruct (starts_with _ _) eqn:E; [|done].
  apply starts_with_2 in E. destruct (Hno (150 + i)%nat); [lia|done].
Qed.

Lemma last_occurrence (a : char) (s : str) q0 :
  s !! q0 = Some a →
  ∃ q, (q0 ≤ q)%nat ∧ s !! q = Some a ∧ ∀ j, (q < j)%nat → s !! j ≠ Some a.
Proof.
  revert q0. induction s as [|c s IH] using rev_ind; intros q0 Hq0; [done|].
  destruct (decide (c = a)) as [->|Hne].
  - exists (length s). apply lookup_lt_Some in Hq0 as Hlt.
    rewrite length_app in Hlt. cbn in Hlt. split_and!; [lia| |].
    + by rewrite lookup_app_r, Nat.sub_diag by lia.
    + intros j Hj. rewrite lookup_ge_None_2; [done|].
      rewrite length_app. cbn. lia.
  - apply lookup_app_Some in Hq0 as [Hq0|[Hlen Hq0]].
    + destruct (IH q0 Hq0) as (q & Hq & Hocc & Hlast).
      apply lookup_lt_Some in Hocc as Hlt.
      exists q. split_and!; [done|by rewrite lookup_app_l|].
      intros j Hj [Hj'|[Hlen Hj']]%lookup_app_Some; [by eapply Hlast|].
      destruct (j - length s)%nat; [|done]. cbn in Hj'. congruence.
    + destruct (q0 - length s)%nat; [|done]. cbn in Hq0. congruence.
Qed.

(** C4: when the raw text has no period directly followed by a space at
    offset 150 or later, the extracted paragraph is the text up to and
    including its last period, [text[0..q+1)], if it has a period (and
    then it has a last one), and the whole text unchanged (the empty text
    included) if it has none. *)
Theorem paragraph_falls_back_to_last_period (text : str) :
  (∀ j, (150 ≤ j)%nat →
        ¬ (text !! j = Some PERIOD ∧ text !! S j = Some SPACE)) →
  (∀ q, text !! q = Some PERIOD →
        (∀ j, (q < j)%nat → text !! j ≠ Some PERIOD) →
        paragraph_of text = take (S q) text)
  ∧ ((∀ j, text !! j ≠ Some PERIOD) → paragraph_of text = text)
  ∧ (∀ q0, text !! q0 = Some PERIOD →
        ∃ q, (q0 ≤ q)%nat ∧ text !! q = Some PERIOD
             ∧ ∀ j, (q < j)%nat → text !! j ≠ Some PERIOD).
Proof.
  intros Hno. split_and!; [| |apply last_occurrence].
  - intros q Hq Hlast. unfold paragraph_of.
    rewrite (no_period_space_find _ Hno). cbn [Z.eqb]. unfold str_rfind.
    rewrite (rfind_at_last _ _ 0 q); [|lia|by apply starts_with_1|].
    + destruct (Z.eqb_spec (0 + Z.of_nat q) (-1)); [lia|]. cbn [negb].
      rewrite Z.add_0_l. apply slice_to_S.
    + intros j Hj. destruct (starts_with _ _) eqn:E; [|done].
      apply starts_with_1 in E. by destruct (Hlast j Hj).
  - intros Hnone. unfold paragraph_of.
    rewrite (no_period_space_find _ Hno). cbn [Z.eqb]. unfold str_rfind.
    rewrite rfind_at_none; [done|].
    intros i. destruct (starts_with _ _) eqn:E; [|done].
    apply starts_with_1 in E. by destruct (Hnone i).
Qed.

Lemma paragraph_falls_back_to_last_period_witness :
  paragraph_of (str_of "Zeus spoke. Hera left. Then")
    = take 22 (str_of "Zeus spoke. Hera left. Then")
  ∧ paragraph_of (str_of "no full stop") = str_of "no full stop"
  ∧ paragraph_of [] = [].
Proof.
  assert (∀ text : str, (length text ≤ 150)%nat →
    ∀ j, (150 ≤ j)%nat →
      ¬ (text !! j = Some PERIOD ∧ text !! S j = Some SPACE)) as Hshort.
  { intros text Hlen j Hj [_ H]. apply lookup_lt_Some in H. lia. }
  split_and!.
  - apply (paragraph_falls_back_to_last_period
             (str_of "Zeus spoke. Hera left. Then")).
    + apply Hshort. vm_compute. lia.
    + reflexivity.
    + intros j Hj. do 22 (destruct j as [|j]; [lia|]).
      do 5 (destruct j as [|j]; [done|]). done.
  - apply (paragraph_falls_back_to_last_period (str_of "no full stop")).
    + apply Hshort. vm_compute. lia.
    + intros j. do 12 (destruct j as [|j]; [done|]). done.
  - apply (paragraph_falls_back_to_last_period []).
    + apply Hshort. vm_compute. lia.
    + intros j. done.
Defined.

(** ** Context window *)

Lemma append_context_drop (window : list str) (p : str) :
  append_context window p = drop (length window + 1 - 5) (window ++ [p]).
Proof.
  unfold append_context, slice_last. rewrite length_app. cbn [length].
  destruct (Nat.ltb_spec 5 (length window + 1)); [done|].
  replace (length window + 1 - 5)%nat with O by lia. done.
Qed.

Lemma windows_of_history (history : list str) :
  foldl append_context [] history = drop (length history - 5) history.
Proof.
  induction history as [|p history IH] using rev_ind; [done|].
  rewrite foldl_app. cbn [foldl]. rewrite IH, append_context_drop.
  rewrite length_drop, length_app. cbn [length].
  destruct (Nat.le_gt_cases (length history) 5) as [Hle|Hgt].
  - replace (length history - 5)%nat with O by lia. rewrite drop_0.
    f_equal. lia.
  - rewrite <- drop_app_le by lia. rewrite drop_drop. f_equal. lia.
Qed.

(** C5: whatever the window holds, appending a paragraph leaves
    min(previous length + 1, 5) entries with the new paragraph last; what
    is kept is the end of the old window followed by the new paragraph, so
    only the earliest entries go; and after any history of appends to the
    empty window, the window is the last five paragraphs of the history
    (all of it while it is shorter). *)
Theorem context_window_keeps_last_five
    (window : list str) (p : str) (history : list str) :
  length (append_context window p) = Nat.min (length window + 1) 5
  ∧ last (append_context window p) = Some p
  ∧ append_context window p
      = drop (length window + 1 - 5) (window ++ [p])
  ∧ append_context window p `suffix_of` window ++ [p]
  ∧ foldl append_context [] history = drop (length history - 5) history
  ∧ (length (foldl append_context [] history) ≤ 5)%nat.
Proof.
  rewrite windows_of_history, append_context_drop.
  split_and!.
  - rewrite length_drop, length_app. cbn [length]. lia.
  - destruct (Nat.le_gt_cases (length window + 1) 5) as [Hle|Hgt].
    + replace (length window + 1 - 5)%nat with O by lia.
      rewrite drop_0. apply last_snoc.
    + rewrite drop_app_le by lia. apply last_snoc.
  - done.
  - apply suffix_drop.
  - done.
  - rewrite length_drop. lia.
Qed.

(** ** Reasoning about the program *)


Lemma hoare_bind {A B} P (m : M A) (f : A → M B) Q R E :
  hoare P m Q E → (∀ a, hoare (Q a) (f a) R E) → hoare P (m ≫= f) R E.
Proof.
  intros Hm Hf st HP. specialize (Hm st HP). unfold mbind, M_bind.
  destruct (m st) as [[a|e|] st']; [|done..]. by apply Hf.
Qed.

Lemma hoare_pre_pure {A} (φ : Prop) (P : state → Prop) (m : M A) Q E :
  (φ → hoare P m Q E) → hoare (λ st, φ ∧ P st) m Q E.
Proof. intros Hm st [Hφ HP]. by apply Hm. Qed.

Lemma hoare_ret {A} (P : state → Prop) (a : A) (Q : A → state → Prop) E :
  (∀ st, P st → Q a st) → hoare P (mret a) Q E.
Proof. intros HQ st HP. cbn. by apply HQ. Qed.

Lemma hoare_conseq {A} (P P' : state → Prop) (m : M A)
    (Q Q' : A → state → Prop) (E E' : state → Prop) :
  hoare P' m Q' E' →
  (∀ st, P st → P' st) → (∀ a st, Q' a st → Q a st) → (∀ st, E' st → E st) →
  hoare P m Q E.
Proof.
  intros Hm HP HQ HE st Hst. specialize (Hm st (HP st Hst)).
  destruct (m st) as [[a|e|] st']; auto.
Qed.


Lemma hoare_tick (P : state → Prop) :
  (∀ st p, P st → P (set_pending p st)) → hoare P tick (λ _, P) P.
Proof.
  intros Hst st HP. unfold tick. destruct (pending st) as [[|n]|]; auto.
Qed.

Lemma hoare_tick_calm (P : state → Prop) E :
  (∀ st, P st → pending st = None) → hoare P tick (λ _, P) E.
Proof. intros Hq st HP. unfold tick. by rewrite (Hq st HP). Qed.

Lemma hoare_write (P Q : state → Prop) o E :
  (∀ st, P st → Q (add_output o st)) → hoare P (write o) (λ _, Q) E.
Proof. intros HQ st HP. cbn. by apply HQ. Qed.

Lemma hoare_raise {A} (P : state → Prop) e (Q : A → state → Prop)
    (E : state → Prop) :
  (∀ st, P st → E st) → hoare P (raise e) Q E.
Proof. intros HE st HP. cbn. by apply HE. Qed.

Lemma hoare_print (P : state → Prop) o :
  quiet_stable P → hoare P (print o) (λ _, P) P.
Proof.
  intros Hst. unfold print. eapply hoare_bind.
  - apply hoare_tick. intros st p HP. by apply Hst.
  - intros []. destruct (printable o).
    + apply hoare_write. intros st HP. by apply Hst.
    + by apply hoare_raise.
Qed.

Lemma hoare_print_calm (P Q : state → Prop) o E :
  printable o = true →
  (∀ st, P st → pending st = None) →
  (∀ st, P st → Q (add_output o st)) →
  hoare P (print o) (λ _, Q) E.
Proof.
  intros Ho Hq HQ. unfold print. rewrite Ho. eapply hoare_bind.
  - by apply hoare_tick_calm.
  - intros []. by apply hoare_write.
Qed.

Lemma hoare_sleep (P : state → Prop) secs :
  (∀ st p, P st → P (set_pending p st)) → hoare P (sleep secs) (λ _, P) P.
Proof.
  intros Hst. unfold sleep. destruct (sleep_error secs).
  - by apply hoare_raise.
  - by apply hoare_tick.
Qed.

Lemma hoare_sleep_calm (P : state → Prop) secs E :
  sleep_error secs = None →
  (∀ st, P st → pending st = None) → hoare P (sleep secs) (λ _, P) E.
Proof.
  intros Hsecs Hq. unfold sleep. rewrite Hsecs. by apply hoare_tick_calm.
Qed.

Lemma tick_calm st : pending st = None → tick st = (Ret (), st).
Proof. intros H. unfold tick. by rewrite H. Qed.

Lemma print_calm o st :
  printable o = true →
  pending st = None → print o st = (Ret (), add_output o st).
Proof.
  intros Ho H. unfold print, mbind, M_bind. by rewrite tick_calm, Ho.
Qed.

Lemma sleep_calm secs st :
  sleep_error secs = None → pending st = None →
  sleep secs st = (Ret (), st).
Proof. intros Hsecs H. unfold sleep. rewrite Hsecs. by apply tick_calm. Qed.

(** Only a token can fail to print. *)
Lemma silent_printable o : displayed [o] = [] → printable o = true.
Proof. by destruct o. Qed.

(** The delays that [time.sleep] takes: the numbers from 0 to the largest
    count of nanoseconds on 64 bits. *)
Lemma sleep_error_none secs :
  sleep_error secs = None
  ↔ ∃ q, secs = Seconds q ∧ (0 <= q)%Q
         ∧ (q * inject_Z (10 ^ 9) <= inject_Z (2 ^ 63 - 1))%Q.
Proof.
  destruct secs as [q| |]; cbn [sleep_error];
    [|split; [done|by intros (? & ? & _)]..].
  split.
  - destruct (Qle_bool (inject_Z (- 2 ^ 63)) _) eqn:H1; [|done].
    destruct (Qle_bool _ (inject_Z (2 ^ 63 - 1))) eqn:H2; [|done].
    cbn [andb]. destruct (Qle_bool 0 q) eqn:H3; [|done]. intros _.
    exists q. split_and!; [done|by apply Qle_bool_iff..].
  - intros (q' & [= <-] & H0 & Hmax).
    apply Qle_bool_iff in Hmax as ->.
    assert (Qle_bool (inject_Z (- 2 ^ 63)) (q * inject_Z (10 ^ 9)) = true)
      as ->.
    { apply Qle_bool_iff. destruct q as [a b].
      unfold Qle, Qmult, inject_Z in *. cbn in *. nia. }
    cbn [andb]. by apply Qle_bool_iff in H0 as ->.
Qed.

(** A negative delay is a [ValueError], unless it is so large that it is
    an [OverflowError]. *)
Lemma sleep_error_negative q :
  (q < 0)%Q →
  sleep_error (Seconds q)
  = Some (if Qle_bool (inject_Z (- 2 ^ 63)) (q * inject_Z (10 ^ 9))
          then ValueError else OverflowError).
Proof.
  intros Hq. cbn [sleep_error].
  destruct (Qle_bool (inject_Z (- 2 ^ 63)) _) eqn:H1; [|done].
  assert (Qle_bool (q * inject_Z (10 ^ 9)) (inject_Z (2 ^ 63 - 1)) = true)
    as ->.
  { apply Qle_bool_iff. destruct q as [a b].
    unfold Qlt, Qle, Qmult, inject_Z in *. cbn in *. nia. }
  cbn [andb]. destruct (Qle_bool 0 q) eqn:H3; [|done].
  apply Qle_bool_iff in H3. by apply Qle_not_lt in H3.
Qed.

(** ** The two HTTP clients *)

Section Clients.
Context {cc : CharClasses}.
Variable w : world.

Lemma post_ollama_calm prompt st :
  pending st = None →
  post_ollama w prompt st
  = (Ret (ollama w (length (prompts st)) prompt), add_prompt prompt st).
Proof.
  intros Hq. unfold post_ollama, mbind, M_bind. by rewrite tick_calm.
Qed.

Lemma post_word_server_calm p st :
  pending st = None →
  post_word_server w p st
  = (Ret (word_server w (length (posts st)) p), add_post p st).
Proof.
  intros Hq. unfold post_word_server, mbind, M_bind. by rewrite tick_calm.
Qed.

Lemma generate_with_ollama_value prompt max_tokens st :
  pending st = None →
  (generate_with_ollama w prompt max_tokens st).1
  = Ret (generated (ollama w (length (prompts st)) prompt)).
Proof.
  intros Hq. unfold generate_with_ollama, mbind, M_bind.
  rewrite (post_ollama_calm _ _ Hq).
  destruct (ollama w (length (prompts st)) prompt)
    as [kind msg|status_code text json]; cbn [generated].
  - by rewrite print_calm.
  - destruct (status_code =? 200).
    + destruct json; [by rewrite print_calm..|done].
    + rewrite !print_calm by done. by destruct json.
Qed.

(** C8: a call to the model client that no Ctrl-C cuts short always
    returns a value. On status 200 with a JSON object it is the object's
    "response" field, or the empty string if the object has none; on
    status 200 with a body that is no JSON object, on any other status,
    and on any exception of the request, it is the empty string. *)
Theorem generate_with_ollama_never_raises
    (prompt : str) (max_tokens : Z) (st : state) :
  pending st = None →
  (∃ v, (generate_with_ollama w prompt max_tokens st).1 = Ret v)
  ∧ (∀ text fields,
       ollama w (length (prompts st)) prompt
         = Response 200 text (JsonObject fields) →
       (generate_with_ollama w prompt max_tokens st).1
         = Ret (default (PyStr []) (fields !! str_of "response")))
  ∧ (∀ text json,
       ollama w (length (prompts st)) prompt = Response 200 text json →
       json = NotJson ∨ json = JsonNonObject →
       (generate_with_ollama w prompt max_tokens st).1 = Ret (PyStr []))
  ∧ (∀ status_code text json,
       ollama w (length (prompts st)) prompt
         = Response status_code text json →
       status_code ≠ 200 →
       (generate_with_ollama w prompt max_tokens st).1 = Ret (PyStr []))
  ∧ (∀ kind msg,
       ollama w (length (prompts st)) prompt = Failed kind msg →
       (generate_with_ollama w prompt max_tokens st).1 = Ret (PyStr [])).
Proof.
  intros Hq. rewrite (generate_with_ollama_value _ _ _ Hq). split_and!.
  - by eexists.
  - by intros text fields ->.
  - by intros text json -> [->| ->].
  - intros status_code text json -> Hne. cbn.
    destruct (Z.eqb_spec status_code 200); [done|]. by destruct json.
  - by intros kind msg ->.
Qed.

Lemma send_word_to_server_calm word n session_id st :
  pending st = None →
  ∃ diagnostics,
    send_word_to_server w word n session_id st
    = (Ret (accepted
              (word_server w (length (posts st)) (Word word n session_id))),
       foldl (λ st o, add_output o st)
         (add_post (Word word n session_id) st) diagnostics)
    ∧ ∀ kind msg,
        word_server w (length (posts st)) (Word word n session_id)
          = Failed kind msg →
        diagnostics =
          [match kind with
           | Timeout => SendTimeoutWarning
           | ConnectionError => SendConnectionWarning
           | OtherError => SendError msg
           end].
Proof.
  intros Hq. unfold send_word_to_server, mbind, M_bind.
  rewrite (post_word_server_calm _ _ Hq).
  destruct (word_server w (length (posts st)) (Word word n session_id))
    as [kind msg|status_code text json]; cbn [accepted].
  - destruct kind; rewrite print_calm by done; eexists [_];
      (split; [done|by intros kind' msg' [= <- <-]]).
  - destruct (status_code =? 200).
    + by exists [].
    + rewrite !print_calm by done.
      by exists [SendStatusWarning status_code; ResponseText text].
Qed.

(** C9: a call to the publisher that no Ctrl-C cuts short posts the
    word once and returns true exactly when the reply has status 200,
    and false otherwise. On a timeout, a connection error or any other
    exception it returns false, and the state it leaves is the same for
    the three but for the one diagnostic printed. *)
Theorem send_word_to_server_true_iff_200
    (word : str) (n : Z) (session_id : str) (st : state) :
  pending st = None →
  ((send_word_to_server w word n session_id st).1 = Ret true
     ↔ ∃ text json,
         word_server w (length (posts st)) (Word word n session_id)
           = Response 200 text json)
  ∧ ((send_word_to_server w word n session_id st).1 = Ret false
     ↔ ¬ ∃ text json,
         word_server w (length (posts st)) (Word word n session_id)
           = Response 200 text json)
  ∧ (∀ kind msg,
       word_server w (length (posts st)) (Word word n session_id)
         = Failed kind msg →
       send_word_to_server w word n session_id st
       = (Ret false,
          add_output
            match kind with
            | Timeout => SendTimeoutWarning
            | ConnectionError => SendConnectionWarning
            | OtherError => SendError msg
            end
            (add_post (Word word n session_id) st))).
Proof.
  intros Hq.
  destruct (send_word_to_server_calm word n session_id st Hq)
    as (diagnostics & -> & Hdiag). cbn [fst].
  destruct (word_server w (length (posts st)) (Word word n session_id))
    as [kind msg|status_code text json] eqn:Hr; cbn [accepted].
  - split_and!.
    + split; [done|]. by intros (? & ? & [=]).
    + split; [|done]. by intros _ (? & ? & [=]).
    + intros kind' msg' [= <- <-]. by rewrite (Hdiag _ _ eq_refl).
  - destruct (Z.eqb_spec status_code 200) as [->|Hne]; split_and!.
    + split; [eauto|done].
    + split; [done|]. intros []. eauto.
    + done.
    + split; [done|]. intros (? & ? & [= ]). done.
    + split; [|done]. intros _ (? & ? & [=]). done.
    + done.
Qed.

End Clients.

(** ** Sequence numbers over a whole run *)

Lemma word_posts_snoc l word n sid :
  word_posts (l ++ [Word word n sid]) = word_posts l ++ [(word, n, sid)].
Proof. unfold word_posts. by rewrite omap_app. Qed.

Lemma word_posts_probe l : word_posts (l ++ [Probe]) = word_posts l.
Proof. unfold word_posts. rewrite omap_app. cbn. by rewrite app_nil_r. Qed.

Lemma numbered_snoc session_id l word n :
  numbered session_id l → n = Z.of_nat (length (word_posts l)) →
  numbered session_id (l ++ [Word word n session_id]).
Proof.
  intros Hl -> i word' n' sid. rewrite word_posts_snoc.
  intros [Hi|[Hlen Hi]]%lookup_app_Some; [exact (Hl _ _ _ _ Hi)|].
  destruct (i - length (word_posts l))%nat as [|k] eqn:Hk; [|done].
  cbn in Hi. injection Hi as <- <- <-. split; [f_equal; lia|done].
Qed.


Lemma posts_frame_only_stable P : posts_frame_only P → quiet_stable P.
Proof.
  intros HP st Hst. split; intros; by apply (HP st).
Qed.

Lemma hoare_tick_keeps (P E : state → Prop) :
  posts_frame_only P → (∀ st, P st → E st) → hoare P tick (λ _, P) E.
Proof.
  intros HP HE. eapply hoare_conseq; [apply (hoare_tick P)|done|done|done].
  intros st p Hst. by apply (HP st).
Qed.

Lemma hoare_print_keeps (P E : state → Prop) o :
  posts_frame_only P → (∀ st, P st → E st) → hoare P (print o) (λ _, P) E.
Proof.
  intros HP HE.
  eapply hoare_conseq; [apply (hoare_print P)|done|done|done].
  by apply posts_frame_only_stable.
Qed.

Lemma hoare_sleep_keeps (P E : state → Prop) secs :
  posts_frame_only P → (∀ st, P st → E st) →
  hoare P (sleep secs) (λ _, P) E.
Proof.
  intros HP HE. eapply hoare_conseq; [apply (hoare_sleep P)|done|done|done].
  intros st p Hst. by apply (HP st).
Qed.

Section Numbering.
Context {cc : CharClasses}.
Variable w : world.
Variable word_delay : float.
Variable session_id : str.

Lemma hoare_word_server_replies (P Q : state → Prop) p E :
  (∀ st, P st → Q (add_post p st)) →
  hoare P (word_server_replies w p) (λ _, Q) E.
Proof. intros HQ st HP. cbn. by apply HQ. Qed.

Lemma hoare_ollama_replies (P Q : state → Prop) prompt E :
  (∀ st, P st → Q (add_prompt prompt st)) →
  hoare P (ollama_replies w prompt) (λ _, Q) E.
Proof. intros HQ st HP. cbn. by apply HQ. Qed.

Lemma generate_with_ollama_keeps P E prompt max_tokens :
  posts_frame_only P → (∀ st, P st → E st) →
  hoare P (generate_with_ollama w prompt max_tokens) (λ _, P) E.
Proof.
  intros HP HE.
  assert (∀ o (v : pyval), hoare P (print o;; mret v) (λ _, P) E) as Hprint.
  { intros o v. eapply hoare_bind with (Q := λ _, P).
    - by apply hoare_print_keeps.
    - intros []. by apply hoare_ret. }
  unfold generate_with_ollama, post_ollama.
  eapply hoare_bind with (Q := λ _, P).
  { eapply hoare_bind with (Q := λ _, P).
    - by apply hoare_tick_keeps.
    - intros []. apply hoare_ollama_replies. intros st. by apply HP. }
  intros [kind msg|status_code text json]; [apply Hprint|].
  destruct (status_code =? 200).
  - destruct json; [apply Hprint..|by apply hoare_ret].
  - eapply hoare_bind with (Q := λ _, P); [by apply hoare_print_keeps|].
    intros []. apply Hprint.
Qed.

Lemma generate_paragraph_keeps P E context :
  posts_frame_only P → (∀ st, P st → E st) →
  hoare P (generate_paragraph w context) (λ _, P) E.
Proof.
  intros HP HE. unfold generate_paragraph.
  eapply hoare_bind with (Q := λ _, P);
    [by apply generate_with_ollama_keeps|].
  intros [new_text|]; [by apply hoare_ret|]. intros st Hst. by apply HE.
Qed.

Lemma next_is_only n f : posts_frame_only (next_is session_id n f).
Proof.
  intros st st' Hp Hf (? & ? & ?). unfold next_is. by rewrite Hp, Hf.
Qed.

Lemma send_word_to_server_numbered word n f :
  hoare (next_is session_id n f) (send_word_to_server w word n session_id)
    (λ _, next_is session_id (n + 1) f) (numbered_so_far session_id).
Proof.
  assert (∀ k st, next_is session_id k f st → numbered_so_far session_id st)
    as Hweak by (by intros k st (? & _)).
  assert (∀ o (b : bool),
    hoare (next_is session_id (n + 1) f) (print o;; mret b)
      (λ _, next_is session_id (n + 1) f) (numbered_so_far session_id))
    as Hprint.
  { intros o b.
    eapply hoare_bind with (Q := λ _, next_is session_id (n + 1) f).
    - apply hoare_print_keeps; [apply next_is_only|apply Hweak].
    - intros []. by apply hoare_ret. }
  unfold send_word_to_server, post_word_server.
  eapply hoare_bind with (Q := λ _, next_is session_id (n + 1) f).
  { eapply hoare_bind with (Q := λ _, next_is session_id n f).
    - apply hoare_tick_keeps; [apply next_is_only|apply Hweak].
    - intros []. apply hoare_word_server_replies.
      intros st (Hnum & Hn & Hf). split_and!; cbn.
      + by apply numbered_snoc.
      + rewrite word_posts_snoc, length_app. cbn. lia.
      + done. }
  intros [kind msg|status_code text json].
  - destruct kind; apply Hprint.
  - destruct (status_code =? 200); [by apply hoare_ret|].
    eapply hoare_bind with (Q := λ _, next_is session_id (n + 1) f).
    + apply hoare_print_keeps; [apply next_is_only|apply Hweak].
    + intros []. apply Hprint.
Qed.

Lemma steady_only n f : posts_frame_only (steady w session_id n f).
Proof.
  unfold steady. destruct (ENABLE_POSTING w); [apply next_is_only|].
  intros st st' Hp Hf. by rewrite Hp, Hf.
Qed.

Lemma steady_so_far_only : posts_frame_only (steady_so_far w session_id).
Proof.
  unfold steady_so_far, numbered_so_far.
  destruct (ENABLE_POSTING w); intros st st' Hp Hf; by rewrite Hp.
Qed.

Lemma steady_weaken n f st :
  steady w session_id n f st → steady_so_far w session_id st.
Proof.
  unfold steady, steady_so_far. destruct (ENABLE_POSTING w).
  - by intros (? & _).
  - by intros (? & _).
Qed.

Lemma for_word_in_steady words n f :
  hoare (steady w session_id n f) (for_word_in w words n session_id word_delay)
    (λ v st, v = n + Z.of_nat (length words) ∧ steady w session_id v f st)
    (steady_so_far w session_id).
Proof.
  revert n. induction words as [|word words IH]; intros n.
  - apply hoare_ret. intros st Hst. split; [cbn; lia|done].
  - cbn [for_word_in].
    eapply hoare_bind with (Q := λ _, steady w session_id (n + 1) f).
    { unfold steady, steady_so_far. destruct (ENABLE_POSTING w).
      - eapply hoare_bind with (Q := λ _, next_is session_id (n + 1) f);
          [apply send_word_to_server_numbered|].
        intros b. destruct b; cbn [negb].
        + by apply hoare_ret.
        + apply hoare_print_keeps; [apply next_is_only|].
          by intros st (? & _).
      - apply hoare_ret. intros st [Hp Hf]. done. }
    intros [].
    eapply hoare_bind with (Q := λ _, steady w session_id (n + 1) f).
    { apply hoare_print_keeps; [apply steady_only|apply steady_weaken]. }
    intros [].
    eapply hoare_bind with (Q := λ _, steady w session_id (n + 1) f).
    { apply hoare_sleep_keeps; [apply steady_only|apply steady_weaken]. }
    intros [].
    eapply hoare_conseq; [apply (IH (n + 1))|done| |done].
    intros v st [-> Hst]. split; [cbn [length]; lia|done].
Qed.

Lemma hoare_get_frame (P : state → Prop) E :
  hoare P get_frame (λ v st, P st ∧ v = frame st) E.
Proof. by intros st HP. Qed.

Lemma hoare_assign (P Q : state → Prop) g E :
  (∀ st, P st → Q (set_frame (g (frame st)) st)) →
  hoare P (assign g) (λ _, Q) E.
Proof. intros HQ st HP. cbn. by apply HQ. Qed.

Lemma in_step_only : posts_frame_only (in_step w session_id).
Proof.
  intros st st' Hp Hf. unfold in_step. rewrite Hf.
  by apply steady_only.
Qed.

Lemma in_step_weaken st :
  in_step w session_id st → steady_so_far w session_id st.
Proof. apply steady_weaken. Qed.

Lemma steady_set_frame n f f' st :
  steady w session_id n f st → steady w session_id n f' (set_frame f' st).
Proof.
  unfold steady, next_is.
  destruct (ENABLE_POSTING w); [by intros (? & ? & _)|by intros (? & _)].
Qed.

Lemma in_step_assign g st :
  in_step w session_id st →
  sequence_number (g (frame st)) = sequence_number (frame st) →
  in_step w session_id (set_frame (g (frame st)) st).
Proof.
  unfold in_step. intros Hst Hg. cbn [frame set_frame]. rewrite Hg.
  by apply (steady_set_frame _ (frame st)).
Qed.

(** Displaying a paragraph from the frame's number and storing the
    number returned keeps the run in step. *)
Lemma display_and_store paragraph :
  hoare (in_step w session_id)
    (v ← get_frame;
     n ← display_and_send_paragraph_word_by_word w
           paragraph (sequence_number v) session_id word_delay;
     assign (λ v, {| sequence_number := n;
                     context_paragraphs := context_paragraphs v;
                     total_paragraphs := total_paragraphs v |}))
    (λ _, in_step w session_id) (steady_so_far w session_id).
Proof.
  eapply hoare_bind; [apply hoare_get_frame|]. intros v.
  eapply hoare_bind.
  - eapply hoare_conseq;
      [apply (for_word_in_steady _ (sequence_number v) v)| |done|done].
    intros st [Hst ->]. exact Hst.
  - intros n. apply hoare_assign. intros st [_ Hst].
    unfold in_step. cbn [frame set_frame sequence_number].
    by apply (steady_set_frame _ v).
Qed.

Lemma loop_body_in_step :
  hoare (in_step w session_id) (loop_body w session_id word_delay)
    (λ _, in_step w session_id) (steady_so_far w session_id).
Proof.
  unfold loop_body.
  eapply hoare_bind; [apply hoare_get_frame|]. intros v.
  eapply hoare_bind with
    (Q := λ _ st, in_step w session_id st ∧ v = frame st).
  { apply generate_paragraph_keeps.
    - intros st st' Hp Hf [Hst ->]. split; [|done].
      by apply (in_step_only st).
    - intros st [Hst _]. by apply in_step_weaken. }
  intros paragraph.
  eapply hoare_bind with (Q := λ n st, steady w session_id n v st).
  { eapply hoare_conseq;
      [apply (for_word_in_steady _ (sequence_number v) v)| | |done].
    - intros st [Hst ->]. exact Hst.
    - by intros n st [_ Hst]. }
  intros n.
  eapply hoare_bind with (Q := λ _, in_step w session_id).
  { apply hoare_assign. intros st Hst. unfold in_step.
    cbn [frame set_frame sequence_number].
    by apply (steady_set_frame _ v). }
  intros [].
  eapply hoare_bind with (Q := λ _, in_step w session_id).
  { apply hoare_assign. intros st Hst.
    by apply (in_step_assign (λ v, {| sequence_number := _ |})). }
  intros [].
  eapply hoare_bind with (Q := λ _, in_step w session_id).
  { apply hoare_assign. intros st Hst.
    by apply (in_step_assign (λ v, {| sequence_number := _ |})). }
  intros [].
  eapply hoare_bind with (Q := λ _, in_step w session_id).
  { apply hoare_print_keeps; [apply in_step_only|apply in_step_weaken]. }
  intros []. apply display_and_store.
Qed.

Lemma while_before_end_in_step fuel k :
  hoare (in_step w session_id) (while_before_end w fuel k session_id word_delay)
    (λ _, in_step w session_id) (steady_so_far w session_id).
Proof.
  revert k. induction fuel as [|fuel IH]; intros k; cbn [while_before_end].
  - intros st Hst. by apply in_step_weaken.
  - destruct (before_deadline w k); [|by apply hoare_ret].
    eapply hoare_bind; [apply loop_body_in_step|]. intros []. apply IH.
Qed.

Lemma hoare_except (P E : state → Prop) body handler (Q : () → state → Prop) :
  hoare P body Q E → hoare E handler Q E →
  hoare P (except_KeyboardInterrupt body handler) Q E.
Proof.
  intros Hb Hh st HP. specialize (Hb st HP).
  unfold except_KeyboardInterrupt.
  destruct (body st) as [[a|e|] st']; [done| |done].
  destruct e; [by apply Hh|done..].
Qed.

End Numbering.

Section WholeRun.
Context {cc : CharClasses}.
Variable w : world.
Variable word_delay : float.

Lemma no_word_posts_only :
  posts_frame_only (λ st, word_posts (posts st) = []).
Proof. intros st st' Hp _. by rewrite Hp. Qed.

Lemma no_word_posts_steady st :
  word_posts (posts st) = [] → steady_so_far w (uuid4 w) st.
Proof.
  intros Hst. unfold steady_so_far, numbered_so_far, numbered.
  destruct (ENABLE_POSTING w); [|done]. rewrite Hst. by intros [|i].
Qed.

Lemma test_connection_posts_no_word :
  hoare (λ st, word_posts (posts st) = []) (test_connection w)
    (λ _ st, word_posts (posts st) = []) (steady_so_far w (uuid4 w)).
Proof.
  pose proof no_word_posts_only as Honly.
  pose proof no_word_posts_steady as Hweak.
  unfold test_connection, post_word_server.
  eapply hoare_bind; [by apply hoare_print_keeps|]. intros [].
  eapply hoare_bind with (Q := λ _ st, word_posts (posts st) = []).
  { eapply hoare_bind; [by apply hoare_tick_keeps|]. intros [].
    apply hoare_word_server_replies. intros st Hst. cbn.
    by rewrite word_posts_probe. }
  intros [kind msg|status_code text json].
  - eapply hoare_bind; [by apply hoare_print_keeps|]. intros [].
    by apply hoare_print_keeps.
  - destruct (status_code =? 200); [by apply hoare_print_keeps|].
    eapply hoare_bind; [by apply hoare_print_keeps|]. intros [].
    eapply hoare_bind; [by apply hoare_print_keeps|]. intros [].
    by apply hoare_print_keeps.
Qed.

Lemma storytelling_numbered fuel max_time_minutes :
  hoare (λ st, word_posts (posts st) = [])
    (paragraph_based_storytelling w fuel max_time_minutes word_delay)
    (λ _, steady_so_far w (uuid4 w)) (steady_so_far w (uuid4 w)).
Proof.
  pose proof (in_step_only w (uuid4 w)) as Honly.
  pose proof (in_step_weaken w (uuid4 w)) as Hweak.
  pose proof (steady_so_far_only w (uuid4 w)) as Honly'.
  unfold paragraph_based_storytelling.
  eapply hoare_bind with (Q := λ _ st, word_posts (posts st) = []).
  { destruct (ENABLE_POSTING w) eqn:Hposting.
    - apply test_connection_posts_no_word.
    - by apply hoare_ret. }
  intros [].
  eapply hoare_bind with (Q := λ _, in_step w (uuid4 w)).
  { apply hoare_assign. intros st Hst.
    unfold in_step, steady, next_is, numbered.
    cbn [frame set_frame posts sequence_number]. rewrite Hst.
    by destruct (ENABLE_POSTING w). }
  intros [].
  eapply hoare_bind; [by apply hoare_print_keeps|]. intros [].
  eapply hoare_bind; [by apply hoare_print_keeps|]. intros [].
  eapply hoare_bind with (Q := λ _, in_step w (uuid4 w)).
  { destruct max_time_minutes as [m|];
      [destruct (m =? 0)|]; by apply hoare_print_keeps. }
  intros [].
  eapply hoare_bind; [by apply hoare_print_keeps|]. intros [].
  eapply hoare_bind with (Q := λ _, steady_so_far w (uuid4 w)).
  { apply hoare_except.
    - eapply hoare_conseq;
        [apply while_before_end_in_step|done| |done].
      intros [] st. apply Hweak.
    - by apply hoare_print_keeps. }
  intros [].
  eapply hoare_bind; [apply hoare_get_frame|]. intros v.
  eapply hoare_conseq with (P' := steady_so_far w (uuid4 w))
    (Q' := λ _, steady_so_far w (uuid4 w))
    (E' := steady_so_far w (uuid4 w));
    [|by intros st [? _]|done|done].
  eapply hoare_bind; [by apply hoare_print_keeps|]. intros [].
  by apply hoare_print_keeps.
Qed.

End WholeRun.

(** ** Runs that no Ctrl-C cuts short *)

Lemma displayed_snoc l o : displayed (l ++ [o]) = displayed l ++ displayed [o].
Proof. unfold displayed. by rewrite omap_app. Qed.

Lemma reported_snoc l o : reported (l ++ [o]) = reported l ++ reported [o].
Proof. unfold reported. by rewrite omap_app. Qed.

Lemma hoare_returns {A} (P : state → Prop) (m : M A) Q st :
  hoare P m Q (λ _, False) → P st →
  ∃ a st', m st = (Ret a, st') ∧ Q a st'.
Proof.
  intros Hm HP. specialize (Hm st HP).
  destruct (m st) as [[a|e|] st']; [by eauto|done..].
Qed.

Lemma bind_run {A B} (m : M A) (f : A → M B) st a st' :
  m st = (Ret a, st') → (m ≫= f) st = f a st'.
Proof. intros Hm. unfold mbind, M_bind. by rewrite Hm. Qed.

Lemma calm_since_refl st : pending st = None →
  calm_since st (frame st) [] [] [] st.
Proof. intros Hq. unfold calm_since. by rewrite !app_nil_r. Qed.

Section Calm.
Context {cc : CharClasses}.
Variable w : world.
Variable word_delay : float.
Variable st0 : state.

Lemma calm_tick f qs ps ws E :
  hoare (calm_since st0 f qs ps ws) tick
    (λ _, calm_since st0 f qs ps ws) E.
Proof. apply hoare_tick_calm. by intros st (? & _). Qed.

Lemma calm_print f qs ps ws o E :
  displayed [o] = [] → reported [o] = [] →
  hoare (calm_since st0 f qs ps ws) (print o)
    (λ _, calm_since st0 f qs ps ws) E.
Proof.
  intros Hd Hr.
  apply hoare_print_calm; [by apply silent_printable|by intros st (? & _)|].
  intros st (Hq & Hp & Hf & Hposts & Hdis & Hrep).
  unfold calm_since. cbn. rewrite displayed_snoc, reported_snoc, Hd, Hr.
  by rewrite !app_nil_r.
Qed.

Lemma calm_print_token f qs ps ws word E :
  encodable word = true →
  hoare (calm_since st0 f qs ps ws) (print (Token word))
    (λ _, calm_since st0 f qs ps (ws ++ [word])) E.
Proof.
  intros Hword. apply hoare_print_calm; [done|by intros st (? & _)|].
  intros st (Hq & Hp & Hf & Hposts & Hdis & Hrep).
  unfold calm_since. cbn. rewrite displayed_snoc, reported_snoc, Hdis.
  cbn. by rewrite app_nil_r, app_assoc.
Qed.

Lemma calm_sleep f qs ps ws E :
  sleep_error word_delay = None →
  hoare (calm_since st0 f qs ps ws) (sleep word_delay)
    (λ _, calm_since st0 f qs ps ws) E.
Proof. intros Hd. apply hoare_sleep_calm; [done|]. by intros st (? & _). Qed.

Lemma calm_assign f qs ps ws g E :
  hoare (calm_since st0 f qs ps ws) (assign g)
    (λ _, calm_since st0 (g f) qs ps ws) E.
Proof.
  apply hoare_assign. intros st (Hq & Hp & Hf & Hposts & Hdis & Hrep).
  unfold calm_since. cbn. by rewrite Hf.
Qed.

Lemma calm_get_frame f qs ps ws E :
  hoare (calm_since st0 f qs ps ws) get_frame
    (λ v st, v = f ∧ calm_since st0 f qs ps ws st) E.
Proof. intros st Hst. cbn. split; [|done]. by destruct Hst as (_ & _ & ? & _).
    Qed.

Lemma calm_generate_with_ollama f qs ps ws prompt max_tokens E :
  hoare (calm_since st0 f qs ps ws)
    (generate_with_ollama w prompt max_tokens)
    (λ _, calm_since st0 f (qs ++ [prompt]) ps ws) E.
Proof.
  assert (∀ o (v : pyval), displayed [o] = [] → reported [o] = [] →
    hoare (calm_since st0 f (qs ++ [prompt]) ps ws) (print o;; mret v)
      (λ _, calm_since st0 f (qs ++ [prompt]) ps ws) E) as Hprint.
  { intros o v Hd Hr. eapply hoare_bind; [by apply calm_print|].
    intros []. by apply hoare_ret. }
  unfold generate_with_ollama, post_ollama.
  eapply hoare_bind with
    (Q := λ _, calm_since st0 f (qs ++ [prompt]) ps ws).
  { eapply hoare_bind; [apply calm_tick|]. intros [].
    apply hoare_ollama_replies.
    intros st (Hq & Hp & Hf & Hposts & Hdis & Hrep).
    unfold calm_since. cbn. by rewrite Hp, app_assoc. }
  intros [kind msg|status_code text json]; [by apply Hprint|].
  destruct (status_code =? 200).
  - destruct json; [by apply Hprint..|by apply hoare_ret].
  - eapply hoare_bind; [by apply calm_print|]. intros []. by apply Hprint.
Qed.

Lemma calm_send_word_to_server f qs ps ws word n session_id E :
  hoare (calm_since st0 f qs ps ws)
    (send_word_to_server w word n session_id)
    (λ _, calm_since st0 f qs (ps ++ [Word word n session_id]) ws) E.
Proof.
  assert (∀ o (b : bool), displayed [o] = [] → reported [o] = [] →
    hoare (calm_since st0 f qs (ps ++ [Word word n session_id]) ws)
      (print o;; mret b)
      (λ _, calm_since st0 f qs (ps ++ [Word word n session_id]) ws) E)
    as Hprint.
  { intros o b Hd Hr. eapply hoare_bind; [by apply calm_print|].
    intros []. by apply hoare_ret. }
  unfold send_word_to_server, post_word_server.
  eapply hoare_bind with
    (Q := λ _, calm_since st0 f qs (ps ++ [Word word n session_id]) ws).
  { eapply hoare_bind; [apply calm_tick|]. intros [].
    apply hoare_word_server_replies.
    intros st (Hq & Hp & Hf & Hposts & Hdis & Hrep).
    unfold calm_since. cbn. by rewrite Hposts, app_assoc. }
  intros [kind msg|status_code text json].
  - by destruct kind; apply Hprint.
  - destruct (status_code =? 200); [by apply hoare_ret|].
    eapply hoare_bind; [by apply calm_print|]. intros []. by apply Hprint.
Qed.

(** Posting a word and marking a post that failed. *)
Lemma calm_send f qs ps ws word n session_id E :
  hoare (calm_since st0 f qs ps ws)
    (if ENABLE_POSTING w then
       send_success ← send_word_to_server w word n session_id;
       if negb send_success then print FailureDot else mret ()
     else mret ())
    (λ _, calm_since st0 f qs
            (ps ++ if ENABLE_POSTING w then [Word word n session_id]
                   else []) ws) E.
Proof.
  destruct (ENABLE_POSTING w).
  - eapply hoare_bind; [apply calm_send_word_to_server|].
    intros []; cbn [negb]; [by apply hoare_ret|by apply calm_print].
  - apply hoare_ret. intros st Hst. by rewrite app_nil_r.
Qed.

(** The posts of a paragraph's words: none when posting is off. *)
Lemma calm_for_word_in f qs ps ws words n session_id E :
  sleep_error word_delay = None →
  forallb encodable words = true →
  hoare (calm_since st0 f qs ps ws)
    (for_word_in w words n session_id word_delay)
    (λ v st,
       v = n + Z.of_nat (length words)
       ∧ calm_since st0 f qs
           (ps ++ if ENABLE_POSTING w then payloads words n session_id
                  else [])
           (ws ++ words) st) E.
Proof.
  intros Hdelay. revert ps ws n.
  induction words as [|word words IH]; intros ps ws n Hwords.
  - apply hoare_ret. intros st Hst. split; [cbn; lia|].
    rewrite app_nil_r. by destruct (ENABLE_POSTING w); rewrite app_nil_r.
  - cbn [for_word_in]. cbn [forallb] in Hwords.
    apply andb_true_iff in Hwords as [Hword Hwords].
    eapply hoare_bind with
      (Q := λ _, calm_since st0 f qs
              (ps ++ if ENABLE_POSTING w then [Word word n session_id]
                     else []) ws).
    { apply calm_send. }
    intros [].
    eapply hoare_bind; [by apply calm_print_token|]. intros [].
    eapply hoare_bind; [by apply calm_sleep|]. intros [].
    eapply hoare_conseq;
      [apply (IH (ps ++ if ENABLE_POSTING w then [Word word n session_id]
                        else []) (ws ++ [word]) (n + 1) Hwords)|done| |done].
    intros v st [-> Hst]. split; [cbn [length]; lia|].
    cbn [payloads]. rewrite <- !app_assoc in Hst. cbn [app] in Hst.
    by destruct (ENABLE_POSTING w).
Qed.

End Calm.

Lemma payloads_lookup words n session_id i word :
  words !! i = Some word →
  payloads words n session_id !! i
  = Some (Word word (n + Z.of_nat i) session_id).
Proof.
  revert n i. induction words as [|x words IH]; intros n i; [done|].
  destruct i as [|i]; cbn [payloads].
  - intros [= ->]. cbn. do 2 f_equal. lia.
  - intros Hi. change ((?x :: ?l) !! S ?j) with (l !! j).
    rewrite (IH (n + 1) i Hi). do 2 f_equal. lia.
Qed.

Lemma findall_single {cc : CharClasses} (c : char) : findall [c] = [[c]].
Proof.
  unfold findall. cbn [length findall_from].
  unfold match_here, alt_word, at_boundary. cbn [word_at xorb].
  destruct (is_word c) eqn:Hw.
  - cbn [andb word_rest head]. unfold at_boundary. cbn [word_at].
    by rewrite Hw.
  - cbn [andb]. unfold alt_space. cbn [span].
    destruct (is_space c) eqn:Hs; [done|].
    unfold alt_other. by rewrite Hw, Hs.
Qed.

Lemma hoare_any {A} (m : M A) :
  hoare (λ _, True) m (λ _ _, True) (λ _, True).
Proof. intros st _. by destruct (m st) as [[a|e|] st']. Qed.

(** Whatever happens on the way, the loop of a paragraph can only return
    the number it was given plus the number of words. *)
Lemma for_word_in_value {cc : CharClasses} (w : world) words n session_id
    word_delay :
  hoare (λ _, True) (for_word_in w words n session_id word_delay)
    (λ v _, v = n + Z.of_nat (length words)) (λ _, True).
Proof.
  revert n. induction words as [|word words IH]; intros n.
  - apply hoare_ret. intros st _. cbn. lia.
  - cbn [for_word_in].
    eapply hoare_bind with (Q := λ _ _, True); [apply hoare_any|].
    intros [].
    eapply hoare_bind with (Q := λ _ _, True); [apply hoare_any|].
    intros [].
    eapply hoare_bind with (Q := λ _ _, True); [apply hoare_any|].
    intros [].
    eapply hoare_conseq; [apply (IH (n + 1))|done| |done].
    intros v st ->. cbn [length]. lia.
Qed.


Section CalmRound.
Context {cc : CharClasses}.
Variable w : world.
Variable word_delay : float.
Variable st0 : state.
Variable session_id : str.

Lemma calm_generate_value f prompt max_tokens E :
  hoare (calm_since st0 f [] [] [])
    (generate_with_ollama w prompt max_tokens)
    (λ v st,
       v = generated (ollama w (length (prompts st0)) prompt)
       ∧ calm_since st0 f [prompt] [] [] st) E.
Proof.
  intros st Hst.
  pose proof (calm_generate_with_ollama w st0 f [] [] [] prompt max_tokens
                (λ _, False) st Hst) as Hrun.
  destruct Hst as (Hq & Hp & _). rewrite app_nil_r in Hp.
  pose proof (generate_with_ollama_value w prompt max_tokens st Hq) as Hv.
  rewrite Hp in Hv.
  destruct (generate_with_ollama w prompt max_tokens st) as [[v|e|] st'];
    [|done..].
  cbn in Hv. by injection Hv as ->.
Qed.

(** A round that no Ctrl-C cuts short and whose model reply is the
    text [t], run from frame [f]. *)
Lemma calm_loop_body f t E :
  generated (ollama w (length (prompts st0))
               (format_prompt (context_paragraphs f))) = PyStr t →
  sleep_error word_delay = None →
  forallb encodable (findall (paragraph_of t)) = true →
  hoare (calm_since st0 f [] [] []) (loop_body w session_id word_delay)
    (λ _ st,
       frame st
       = {| sequence_number :=
              sequence_number f
              + Z.of_nat (length (findall (paragraph_of t))) + 1;
            context_paragraphs :=
              append_context (context_paragraphs f) (paragraph_of t);
            total_paragraphs := total_paragraphs f + 1 |}
       ∧ pending st = None
       ∧ prompts st
         = prompts st0 ++ [format_prompt (context_paragraphs f)]
       ∧ displayed (stdout st)
         = displayed (stdout st0) ++ findall (paragraph_of t) ++ [[NEWLINE]]
       ∧ reported (stdout st) = reported (stdout st0))
    E.
Proof.
  intros Hgen Hdelay Hwords. unfold loop_body.
  eapply hoare_bind; [apply calm_get_frame|]. intros v.
  apply hoare_pre_pure. intros ->.
  eapply hoare_bind with
    (Q := λ p st, p = paragraph_of t
                  ∧ calm_since st0 f [format_prompt (context_paragraphs f)]
                      [] [] st).
  { intros st Hst. unfold generate_paragraph.
    pose proof (calm_generate_value f
                  (format_prompt (context_paragraphs f)) 300 E st Hst)
      as Hrun.
    unfold mbind, M_bind.
    destruct (generate_with_ollama w _ 300 st) as [[x|e|] st']; [|done..].
    destruct Hrun as [-> Hst']. rewrite Hgen. by cbn. }
  intros paragraph. apply hoare_pre_pure. intros ->.
  eapply hoare_bind; [by apply calm_for_word_in|]. intros n.
  apply hoare_pre_pure. intros ->.
  eapply hoare_bind; [apply calm_assign|]. intros [].
  eapply hoare_bind; [apply calm_assign|]. intros [].
  eapply hoare_bind; [apply calm_assign|]. intros [].
  eapply hoare_bind; [by apply calm_print|]. intros [].
  eapply hoare_bind; [apply calm_get_frame|]. intros v'.
  apply hoare_pre_pure. intros ->.
  eapply hoare_bind;
    [apply calm_for_word_in; [done|by rewrite findall_single]|].
  intros n'.
  apply hoare_pre_pure. intros ->.
  eapply hoare_conseq; [apply calm_assign|done| |done].
  cbn beta. intros [] st (Hq & Hp & Hf & _ & Hdis & Hrep).
  split_and!; [|done|done| |done].
  - rewrite Hf, findall_single. by cbn.
  - by rewrite Hdis, findall_single.
Qed.

End CalmRound.

(** ** Fuel *)

Create HintDb finishes.

Lemma finishes_bind {A B} (m : M A) (f : A → M B) :
  finishes m → (∀ a, finishes (f a)) → finishes (m ≫= f).
Proof.
  intros Hm Hf st. specialize (Hm st). unfold mbind, M_bind.
  destruct (m st) as [[a|e|] st']; [apply Hf|done|done].
Qed.

Lemma finishes_ret {A} (a : A) : finishes (mret a : M A).
Proof. by intros st. Qed.

Lemma finishes_raise {A} e : finishes (raise e : M A).
Proof. by intros st. Qed.

Lemma finishes_tick : finishes tick.
Proof. intros st. unfold tick. by destruct (pending st) as [[|n]|]. Qed.

Lemma finishes_write o : finishes (write o).
Proof. by intros st. Qed.

Lemma finishes_get_frame : finishes get_frame.
Proof. by intros st. Qed.

Lemma finishes_assign g : finishes (assign g).
Proof. by intros st. Qed.

Lemma finishes_print o : finishes (print o).
Proof.
  apply finishes_bind; [apply finishes_tick|intros _].
  destruct (printable o); [apply finishes_write|apply finishes_raise].
Qed.

Lemma finishes_sleep secs : finishes (sleep secs).
Proof.
  unfold sleep.
  destruct (sleep_error secs); [apply finishes_raise|apply finishes_tick].
Qed.

Lemma finishes_except body handler :
  finishes body → finishes handler →
  finishes (except_KeyboardInterrupt body handler).
Proof.
  intros Hb Hh st. specialize (Hb st). unfold except_KeyboardInterrupt.
  destruct (body st) as [[a|e|] st']; [done| |done].
  destruct e; [apply Hh|done..].
Qed.

#[local] Hint Resolve finishes_ret finishes_raise finishes_tick
  finishes_write finishes_get_frame finishes_assign finishes_print
  finishes_sleep : finishes.

Ltac finish :=
  repeat first
    [ solve [auto with finishes]
    | match goal with
      | |- finishes (match ?x with _ => _ end) => destruct x
      | |- finishes (if ?b then _ else _) => destruct b
      end
    | apply finishes_bind; [|intros ?] ].

Section Fuel.
Context {cc : CharClasses}.
Variable w : world.
Variable word_delay : float.

Lemma finishes_ollama_replies prompt : finishes (ollama_replies w prompt).
Proof. by intros st. Qed.

Lemma finishes_word_server_replies p : finishes (word_server_replies w p).
Proof. by intros st. Qed.

Hint Resolve finishes_ollama_replies finishes_word_server_replies
  : finishes.

Lemma finishes_generate_with_ollama prompt max_tokens :
  finishes (generate_with_ollama w prompt max_tokens).
Proof. unfold generate_with_ollama. finish. Qed.

Lemma finishes_send_word_to_server word n session_id :
  finishes (send_word_to_server w word n session_id).
Proof. unfold send_word_to_server. finish. Qed.

Hint Resolve finishes_generate_with_ollama finishes_send_word_to_server
  : finishes.

Lemma finishes_for_word_in words n session_id :
  finishes (for_word_in w words n session_id word_delay).
Proof.
  revert n. induction words as [|word words IH]; intros n;
    cbn [for_word_in]; finish.
Qed.

Hint Resolve finishes_for_word_in : finishes.

Lemma finishes_loop_body session_id : finishes (loop_body w session_id
    word_delay).
Proof.
  unfold loop_body, generate_paragraph,
    display_and_send_paragraph_word_by_word. finish.
Qed.

Lemma finishes_test_connection : finishes (test_connection w).
Proof. unfold test_connection. finish. Qed.

(** The loop stops for lack of fuel only if none of the tests it made
    found the deadline passed. *)
Lemma while_before_end_finishes fuel k session_id st j :
  (k ≤ j < k + fuel)%nat → before_deadline w j = false →
  (while_before_end w fuel k session_id word_delay st).1 ≠ Running.
Proof.
  revert k st. induction fuel as [|fuel IH]; intros k st Hj Hend; [lia|].
  cbn [while_before_end].
  destruct (before_deadline w k) eqn:Hk; [|done].
  unfold mbind, M_bind. pose proof (finishes_loop_body session_id st) as Hb.
  destruct (loop_body w session_id word_delay st) as [[[]|e|] st'];
      [|done|done].
  apply IH; [|done]. destruct (decide (j = k)) as [->|]; [congruence|lia].
Qed.

Lemma storytelling_finishes fuel max_time_minutes st j :
  (j < fuel)%nat → before_deadline w j = false →
  (paragraph_based_storytelling w fuel max_time_minutes word_delay st).1 ≠
      Running.
Proof.
  intros Hj Hend. revert st.
  change (finishes (paragraph_based_storytelling w fuel max_time_minutes
      word_delay)).
  unfold paragraph_based_storytelling.
  assert (finishes (while_before_end w fuel 0 (uuid4 w) word_delay)) as Hloop.
  { intros st. apply (while_before_end_finishes _ _ _ _ j); [lia|done]. }
  pose proof finishes_test_connection as Htest.
  pose proof finishes_except as Hexcept.
  finish.
  all: try (apply finishes_except; [done|finish]).
Qed.

End Fuel.

(** ** Two runs that differ in the word server only *)

Create HintDb agree.

Lemma agree_bind {A B} (m1 m2 : M A) (f1 f2 : A → M B) :
  agree m1 m2 → (∀ a, agree (f1 a) (f2 a)) → agree (m1 ≫= f1) (m2 ≫= f2).
Proof.
  intros Hm Hf st1 st2 H1 H2 Hobs.
  destruct (Hm st1 st2 H1 H2 Hobs) as (Hr & H1' & H2' & Hobs').
  unfold mbind, M_bind.
  destruct (m1 st1) as [r1 st1'], (m2 st2) as [r2 st2']. cbn in *. subst r2.
  destruct r1 as [a|e|]; [by apply Hf|done|done].
Qed.

Lemma agree_ret {A} (a : A) : agree (mret a : M A) (mret a).
Proof. intros st1 st2 H1 H2 Hobs. cbn. by split_and!. Qed.

Lemma agree_raise {A} e : agree (raise e : M A) (raise e).
Proof. intros st1 st2 H1 H2 Hobs. cbn. by split_and!. Qed.

Lemma agree_out_of_fuel {A} : agree (out_of_fuel : M A) out_of_fuel.
Proof. intros st1 st2 H1 H2 Hobs. cbn. by split_and!. Qed.

Lemma agree_tick : agree tick tick.
Proof.
  intros st1 st2 H1 H2 Hobs. rewrite !tick_calm by done. cbn. by split_and!.
Qed.

Lemma agree_write o : agree (write o) (write o).
Proof.
  intros st1 st2 H1 H2 [= Hp Hf Hd Hr]. unfold obs. cbn.
  rewrite !displayed_snoc, !reported_snoc, Hp, Hf, Hd, Hr. by split_and!.
Qed.

Lemma agree_print o : agree (print o) (print o).
Proof.
  apply agree_bind; [apply agree_tick|intros _].
  destruct (printable o); [apply agree_write|apply agree_raise].
Qed.

Lemma agree_sleep secs : agree (sleep secs) (sleep secs).
Proof.
  unfold sleep.
  destruct (sleep_error secs); [apply agree_raise|apply agree_tick].
Qed.

Lemma agree_get_frame : agree get_frame get_frame.
Proof.
  intros st1 st2 H1 H2 [= Hp Hf Hd Hr]. unfold obs. cbn.
  rewrite Hp, Hf, Hd, Hr. by split_and!.
Qed.

Lemma agree_assign g : agree (assign g) (assign g).
Proof.
  intros st1 st2 H1 H2 [= Hp Hf Hd Hr]. unfold obs. cbn.
  rewrite Hp, Hf, Hd, Hr. by split_and!.
Qed.

Lemma agree_except body1 body2 handler1 handler2 :
  agree body1 body2 → agree handler1 handler2 →
  agree (except_KeyboardInterrupt body1 handler1)
    (except_KeyboardInterrupt body2 handler2).
Proof.
  intros Hb Hh st1 st2 H1 H2 Hobs.
  destruct (Hb st1 st2 H1 H2 Hobs) as (Hr & H1' & H2' & Hobs').
  unfold except_KeyboardInterrupt.
  destruct (body1 st1) as [r1 st1'], (body2 st2) as [r2 st2']. cbn in *.
  subst r2. destruct r1 as [a|e|]; [done| |done].
  destruct e; [by apply Hh|done..].
Qed.

(** A step that returns and changes nothing that is compared. *)
Lemma agree_unobserved (m1 m2 : M ()) :
  (∀ st, pending st = None →
     (m1 st).1 = Ret () ∧ pending (m1 st).2 = None ∧ obs (m1 st).2 = obs st) →
  (∀ st, pending st = None →
     (m2 st).1 = Ret () ∧ pending (m2 st).2 = None ∧ obs (m2 st).2 = obs st) →
  agree m1 m2.
Proof.
  intros Hm1 Hm2 st1 st2 H1 H2 Hobs.
  destruct (Hm1 st1 H1) as (-> & ? & ->), (Hm2 st2 H2) as (-> & ? & ->).
  done.
Qed.

#[local] Hint Resolve agree_ret agree_raise agree_out_of_fuel agree_tick
  agree_write agree_print agree_sleep agree_get_frame agree_assign : agree.

Ltac agreeing :=
  repeat first
    [ solve [auto with agree]
    | match goal with
      | |- agree (match ?x with _ => _ end) _ => destruct x
      | |- agree (if ?b then _ else _) _ => destruct b
      end
    | apply agree_bind; [|intros ?] ].

Section TwoRuns.
Context {cc : CharClasses}.
Variables w1 w2 : world.
Variable word_delay : float.
Hypothesis same_ollama : ∀ k prompt, ollama w1 k prompt = ollama w2 k prompt.
Hypothesis same_deadline : ∀ k, before_deadline w1 k = before_deadline w2 k.
Hypothesis same_uuid4 : uuid4 w1 = uuid4 w2.

Lemma agree_ollama_replies prompt :
  agree (ollama_replies w1 prompt) (ollama_replies w2 prompt).
Proof.
  intros st1 st2 H1 H2 [= Hp Hf Hd Hr]. unfold obs. cbn.
  rewrite Hp, Hf, Hd, Hr, same_ollama. by split_and!.
Qed.

Hint Resolve agree_ollama_replies : agree.

Lemma agree_generate_with_ollama prompt max_tokens :
  agree (generate_with_ollama w1 prompt max_tokens)
    (generate_with_ollama w2 prompt max_tokens).
Proof. unfold generate_with_ollama, post_ollama. agreeing. Qed.

(** Posting a word, and marking a post that failed, returns and changes
    nothing that is compared. *)
Lemma send_unobserved w word n session_id st :
  pending st = None →
  ((if ENABLE_POSTING w then
      send_success ← send_word_to_server w word n session_id;
      if negb send_success then print FailureDot else mret ()
    else mret ()) st).1 = Ret ()
  ∧ pending
      ((if ENABLE_POSTING w then
          send_success ← send_word_to_server w word n session_id;
          if negb send_success then print FailureDot else mret ()
        else mret ()) st).2 = None
  ∧ obs
      ((if ENABLE_POSTING w then
          send_success ← send_word_to_server w word n session_id;
          if negb send_success then print FailureDot else mret ()
        else mret ()) st).2 = obs st.
Proof.
  intros Hq. destruct (ENABLE_POSTING w); [|done].
  assert (hoare (calm_since st (frame st) [] [] [])
            (send_success ← send_word_to_server w word n session_id;
             if negb send_success then print FailureDot else mret ())
            (λ _, calm_since st (frame st) []
                    ([] ++ [Word word n session_id]) [])
            (λ _, False)) as Hrun.
  { eapply hoare_bind; [apply calm_send_word_to_server|].
    intros []; cbn [negb]; [by apply hoare_ret|by apply calm_print]. }
  destruct (hoare_returns _ _ _ st Hrun (calm_since_refl st Hq))
    as ([] & st' & -> & ? & Hp & Hf & _ & Hd & Hr).
  unfold obs. cbn. rewrite Hp, Hf, Hd, Hr, !app_nil_r. by split_and!.
Qed.

Lemma agree_for_word_in words n session_id :
  agree (for_word_in w1 words n session_id word_delay)
    (for_word_in w2 words n session_id word_delay).
Proof.
  revert n. induction words as [|word words IH]; intros n;
    cbn [for_word_in]; [apply agree_ret|].
  apply agree_bind.
  { apply agree_unobserved; apply send_unobserved. }
  intros []. agreeing.
Qed.

Hint Resolve agree_generate_with_ollama agree_for_word_in : agree.

Lemma agree_loop_body session_id :
  agree (loop_body w1 session_id word_delay) (loop_body w2 session_id
      word_delay).
Proof.
  unfold loop_body, generate_paragraph,
    display_and_send_paragraph_word_by_word. agreeing.
Qed.

Lemma agree_while_before_end fuel k session_id :
  agree (while_before_end w1 fuel k session_id word_delay)
    (while_before_end w2 fuel k session_id word_delay).
Proof.
  revert k. induction fuel as [|fuel IH]; intros k; cbn [while_before_end];
    [apply agree_out_of_fuel|].
  rewrite same_deadline. pose proof agree_loop_body. agreeing.
Qed.

Lemma test_connection_unobserved w st :
  pending st = None →
  ((if ENABLE_POSTING w then test_connection w else mret ()) st).1 = Ret ()
  ∧ pending ((if ENABLE_POSTING w then test_connection w else mret ()) st).2
    = None
  ∧ obs ((if ENABLE_POSTING w then test_connection w else mret ()) st).2
    = obs st.
Proof.
  intros Hq. destruct (ENABLE_POSTING w); [|done].
  assert (hoare (calm_since st (frame st) [] [] []) (test_connection w)
            (λ _, calm_since st (frame st) [] [Probe] []) (λ _, False))
    as Hrun.
  { unfold test_connection, post_word_server.
    eapply hoare_bind; [by apply calm_print|]. intros [].
    eapply hoare_bind with
      (Q := λ _, calm_since st (frame st) [] [Probe] []).
    { eapply hoare_bind; [apply calm_tick|]. intros [].
      apply hoare_word_server_replies.
      intros st' (? & ? & ? & Hposts & ? & ?). unfold calm_since. cbn.
      rewrite app_nil_r in Hposts. rewrite Hposts. by split_and!. }
    intros [kind msg|status_code text json].
    - eapply hoare_bind; [by apply calm_print|]. intros [].
      by apply calm_print.
    - destruct (status_code =? 200); [by apply calm_print|].
      eapply hoare_bind; [by apply calm_print|]. intros [].
      eapply hoare_bind; [by apply calm_print|]. intros [].
      by apply calm_print. }
  destruct (hoare_returns _ _ _ st Hrun (calm_since_refl st Hq))
    as ([] & st' & -> & ? & Hp & Hf & _ & Hd & Hr).
  unfold obs. cbn. rewrite Hp, Hf, Hd, Hr, !app_nil_r. by split_and!.
Qed.

Lemma agree_storytelling fuel max_time_minutes :
  agree (paragraph_based_storytelling w1 fuel max_time_minutes word_delay)
    (paragraph_based_storytelling w2 fuel max_time_minutes word_delay).
Proof.
  unfold paragraph_based_storytelling. rewrite same_uuid4.
  apply agree_bind.
  { apply agree_unobserved; apply test_connection_unobserved. }
  intros [].
  apply agree_bind; [apply agree_assign|]. intros [].
  apply agree_bind; [apply agree_print|]. intros [].
  apply agree_bind.
  { (* the model named in the banner is not compared *)
    apply agree_unobserved; intros st Hq; rewrite print_calm by done;
      unfold obs; cbn; rewrite displayed_snoc, reported_snoc, !app_nil_r;
      by split_and!. }
  intros [].
  pose proof (agree_while_before_end fuel 0 (uuid4 w2)) as Hloop.
  apply agree_bind; [agreeing|]. intros [].
  apply agree_bind; [apply agree_print|]. intros [].
  apply agree_bind.
  { apply agree_except; [done|apply agree_print]. }
  intros []. agreeing.
Qed.

End TwoRuns.


(** C6, at the input where it fails: Ctrl-C arrives in the pause after
    the third token of the first paragraph. Three tokens were posted with
    numbers 0, 1, 2 and displayed, the summary is printed with the session
    id, and the total it reports is 0. *)
Theorem interrupt_in_paragraph_reports_stale_total :
  (paragraph_based_storytelling (cc := ascii_classes)
     (small_world true (Some 20%nat)) 5 None DEFAULT_DELAY
     (start (small_world true (Some 20%nat)))).1 = Ret ()
  ∧ word_posts
      (posts
         (paragraph_based_storytelling (cc := ascii_classes)
            (small_world true (Some 20%nat)) 5 None DEFAULT_DELAY
            (start (small_world true (Some 20%nat)))).2)
    = [(str_of "Hi", 0, str_of "0b5c"); (str_of " ", 1, str_of "0b5c");
       (str_of "there", 2, str_of "0b5c")]
  ∧ displayed
      (stdout
         (paragraph_based_storytelling (cc := ascii_classes)
            (small_world true (Some 20%nat)) 5 None DEFAULT_DELAY
            (start (small_world true (Some 20%nat)))).2)
    = [str_of "Hi"; str_of " "; str_of "there"]
  ∧ reported
      (stdout
         (paragraph_based_storytelling (cc := ascii_classes)
            (small_world true (Some 20%nat)) 5 None DEFAULT_DELAY
            (start (small_world true (Some 20%nat)))).2)
    = [(0, str_of "0b5c")].
Proof. vm_compute. done. Qed.

(** ** The theorems at work in the small world *)

Lemma context_window_of_seven :
  foldl append_context []
    (map str_of ["a"; "b"; "c"; "d"; "e"; "f"; "g"]%string)
  = map str_of ["c"; "d"; "e"; "f"; "g"]%string.
Proof. reflexivity. Qed.

Lemma generate_with_ollama_never_raises_witness :
  pending (start (small_world true None)) = None
  ∧ (generate_with_ollama (small_world true None) (str_of "Sing")
       300 (start (small_world true None))).1
    = Ret (default (PyStr [])
             (({[ str_of "response" := PyStr (str_of "Hi there") ]}
                : gmap str pyval) !! str_of "response")).
Proof.
  split; [reflexivity|].
  apply (proj1 (proj2 (generate_with_ollama_never_raises
                         (small_world true None) (str_of "Sing") 300
                         (start (small_world true None)) eq_refl)) []).
  reflexivity.
Defined.

Lemma send_word_to_server_true_iff_200_witness :
  pending (start (small_world true None)) = None
  ∧ (send_word_to_server (small_world true None) (str_of "Zeus") 0
       (str_of "0b5c") (start (small_world true None))).1 = Ret true.
Proof.
  split; [reflexivity|].
  apply (proj1 (send_word_to_server_true_iff_200
                  (small_world true None) (str_of "Zeus") 0 (str_of "0b5c")
                  (start (small_world true None)) eq_refl)).
  exists [], NotJson. reflexivity.
Defined.



(** ** The shape of the tokens *)

Section TokenShape.
Context {cc : CharClasses}.

Lemma word_rest_words prev s m rest :
  word_rest prev s = Some (m, rest) →
  Forall (λ c, is_word c = true) m ∧ m ++ rest = s.
Proof.
  revert prev m rest. induction s as [|c s IH]; intros prev m rest.
  - cbn. destruct (at_boundary _ _); [|done]. by intros [= <- <-].
  - cbn [word_rest]. destruct (is_word c) eqn:Hc.
    + destruct (word_rest c s) as [[m' rest']|] eqn:Hrec.
      * intros [= <- <-]. destruct (IH _ _ _ Hrec) as [Hall <-].
        split; [by constructor|done].
      * destruct (at_boundary _ _); [|done]. by intros [= <- <-].
    + destruct (at_boundary _ _); [|done]. by intros [= <- <-].
Qed.

Lemma word_rest_stops prev s m rest :
  is_word prev = true → word_rest prev s = Some (m, rest) →
  word_at (head rest) = false.
Proof.
  revert prev m rest. induction s as [|c s IH]; intros prev m rest Hp.
  - cbn. destruct (at_boundary _ _); [|done]. by intros [= <- <-].
  - cbn [word_rest]. unfold at_boundary. cbn [head word_at]. rewrite Hp.
    destruct (is_word c) eqn:Hc; cbn [xorb negb].
    + destruct (word_rest c s) as [[m' rest']|] eqn:Hrec; [|done].
      intros [= <- <-]. by apply (IH c m' rest').
    + intros [= <- <-]. cbn. done.
Qed.

Lemma match_here_shape prev s m rest :
  match_here prev s = Some (m, rest) →
  m ≠ [] ∧ m ++ rest = s
  ∧ (Forall (λ c, is_word c = true) m
     ∨ Forall (λ c, is_space c = true) m
     ∨ ∃ c, m = [c] ∧ is_word c = false ∧ is_space c = false).
Proof.
  unfold match_here. destruct (alt_word prev s) as [r|] eqn:Hw.
  - intros [= ->]. unfold alt_word in Hw. destruct s as [|c s]; [done|].
    destruct (at_boundary prev (Some c) && is_word c) eqn:Hb; [|done].
    apply andb_true_iff in Hb as [_ Hc].
    destruct (word_rest c s) as [[m' rest']|] eqn:Hrec; [|done].
    cbn in Hw. injection Hw as <- <-.
    destruct (word_rest_words _ _ _ _ Hrec) as [Hall <-].
    split_and!; [done|done|]. left. by constructor.
  - destruct (alt_space s) as [r|] eqn:Hs.
    + intros [= ->]. unfold alt_space in Hs.
      destruct (span is_space s) as [m' rest'] eqn:Hspan.
      destruct (span_spec _ _ _ _ Hspan) as (<- & Hall & _).
      destruct m' as [|c m']; [done|]. injection Hs as <- <-.
      split_and!; [done|done|]. by right; left.
    + unfold alt_other. destruct s as [|c s]; [done|].
      destruct (negb (is_word c) && negb (is_space c)) eqn:Hb; [|done].
      apply andb_true_iff in Hb as [Hc Hsp%negb_true_iff].
      apply negb_true_iff in Hc. intros [= <- <-].
      split_and!; [done|done|]. right; right. by exists c.
Qed.

Lemma findall_from_shape fuel prev s :
  Forall (λ tok,
            tok ≠ []
            ∧ (Forall (λ c, is_word c = true) tok
               ∨ Forall (λ c, is_space c = true) tok
               ∨ ∃ c, tok = [c] ∧ is_word c = false ∧ is_space c = false))
    (findall_from fuel prev s).
Proof.
  revert prev s. induction fuel as [|fuel IH]; intros prev s; [constructor|].
  cbn [findall_from]. destruct s as [|c s]; [constructor|].
  destruct (match_here prev (c :: s)) as [[m rest]|] eqn:Hm; [|apply IH].
  destruct (match_here_shape _ _ _ _ Hm) as (Hne & _ & Hkind).
  constructor; [done|apply IH].
Qed.

(** X1: every token that [findall] produces is non-empty and is a run of
    word characters, a run of whitespace characters, or one character
    that is neither; this holds for any tables [\w] and [\s]. *)
Theorem tokens_are_runs_or_single (text : str) :
  Forall (λ tok,
            tok ≠ []
            ∧ (Forall (λ c, is_word c = true) tok
               ∨ Forall (λ c, is_space c = true) tok
               ∨ ∃ c, tok = [c] ∧ is_word c = false ∧ is_space c = false))
    (findall text).
Proof. apply findall_from_shape. Qed.

Hypothesis word_not_space : ∀ c, is_word c = true → is_space c = false.

Lemma match_here_maximal prev s m rest :
  match_here prev s = Some (m, rest) →
  (Forall (λ c, is_word c = true) m → word_at (head rest) = false)
  ∧ (Forall (λ c, is_space c = true) m →
     from_option is_space false (head rest) = false).
Proof.
  unfold match_here. destruct (alt_word prev s) as [r|] eqn:Hw.
  - intros [= ->]. unfold alt_word in Hw. destruct s as [|c s]; [done|].
    destruct (at_boundary prev (Some c) && is_word c) eqn:Hb; [|done].
    apply andb_true_iff in Hb as [_ Hc].
    destruct (word_rest c s) as [[m' rest']|] eqn:Hrec; [|done].
    cbn in Hw. injection Hw as <- <-. split.
    + intros _. by apply (word_rest_stops c s m').
    + intros Hall. apply Forall_cons in Hall as [Hsp _].
      apply word_not_space in Hc. congruence.
  - destruct (alt_space s) as [r|] eqn:Hs.
    + intros [= ->]. unfold alt_space in Hs.
      destruct (span is_space s) as [m' rest'] eqn:Hspan.
      destruct (span_spec _ _ _ _ Hspan) as (<- & Hall & Hstop).
      destruct m' as [|c m']; [done|]. injection Hs as <- <-. split; [|done].
      intros Hw'. apply Forall_cons in Hw' as [Hc _].
      apply Forall_cons in Hall as [Hsp _].
      apply word_not_space in Hc. congruence.
    + unfold alt_other. destruct s as [|c s]; [done|].
      destruct (negb (is_word c) && negb (is_space c)) eqn:Hb; [|done].
      apply andb_true_iff in Hb as [Hc Hsp%negb_true_iff].
      apply negb_true_iff in Hc. intros [= <- <-]. split.
      * intros Hall. apply Forall_cons in Hall as [? _]. congruence.
      * intros Hall. apply Forall_cons in Hall as [? _]. congruence.
Qed.

Lemma findall_from_head fuel prev c s :
  (length (c :: s) ≤ fuel)%nat → unblocked prev (c :: s) →
  ∃ m l, findall_from fuel prev (c :: s) = m :: l ∧ head m = Some c.
Proof.
  intros Hlen Hinv. destruct fuel as [|fuel]; [cbn in Hlen; lia|].
  cbn [findall_from].
  destruct (match_here_total word_not_space prev c s Hinv)
    as (m & rest & -> & Hne & Hm & _).
  exists m, (findall_from fuel (from_option Some prev (last m)) rest).
  split; [done|]. destruct m as [|x m]; [done|]. by injection Hm as ->.
Qed.

Lemma findall_from_maximal fuel prev s i a b :
  (length s ≤ fuel)%nat → unblocked prev s →
  findall_from fuel prev s !! i = Some a →
  findall_from fuel prev s !! S i = Some b →
  ¬ (Forall (λ c, is_word c = true) a ∧ Forall (λ c, is_word c = true) b)
  ∧ ¬ (Forall (λ c, is_space c = true) a
       ∧ Forall (λ c, is_space c = true) b).
Proof.
  revert prev s i. induction fuel as [|fuel IH]; intros prev s i Hlen Hinv;
    [done|].
  cbn [findall_from]. destruct s as [|c s]; [done|].
  destruct (match_here_total word_not_space prev c s Hinv)
    as (m & rest & Hm & Hne & Happ & Hinv').
  rewrite Hm.
  assert (length rest ≤ fuel)%nat as Hlen'.
  { apply (f_equal length) in Happ. rewrite length_app in Happ.
    cbn in Happ, Hlen. destruct m; [done|]. cbn in Happ. lia. }
  assert (from_option Some prev (last m) = last m) as Hlast.
  { destruct (last m) eqn:Hl; [done|]. by apply last_None in Hl. }
  rewrite Hlast. destruct i as [|i]; [|by apply IH].
  intros [= <-] Hb. cbn in Hb.
  destruct rest as [|d rest]; [by destruct fuel|].
  destruct (findall_from_head fuel (last m) d rest Hlen' Hinv')
    as (m2 & l & Hrun & Hhead).
  rewrite Hrun in Hb. injection Hb as ->.
  destruct (match_here_maximal _ _ _ _ Hm) as [Hword Hspace].
  destruct b as [|x b]; [done|]. injection Hhead as ->.
  split; intros [Ha [Hx _]%Forall_cons].
  - specialize (Hword Ha). cbn in Hword. congruence.
  - specialize (Hspace Ha). cbn in Hspace. congruence.
Qed.

(** X2: when [\w] and [\s] share no character, the runs are maximal: two
    tokens that follow one another are never both runs of word characters
    nor both runs of whitespace. *)
Theorem adjacent_tokens_differ_in_kind (text : str) (i : nat) (a b : str) :
  findall text !! i = Some a → findall text !! S i = Some b →
  ¬ (Forall (λ c, is_word c = true) a ∧ Forall (λ c, is_word c = true) b)
  ∧ ¬ (Forall (λ c, is_space c = true) a
       ∧ Forall (λ c, is_space c = true) b).
Proof.
  unfold findall. apply findall_from_maximal; [lia|by intros [=]].
Qed.

End TokenShape.

Lemma adjacent_tokens_differ_in_kind_witness :
  (∀ c, ascii_word c = true → ascii_space c = false)
  ∧ findall (cc := ascii_classes) (str_of "a  b") !! 0%nat = Some (str_of "a")
  ∧ findall (cc := ascii_classes) (str_of "a  b") !! 1%nat = Some (str_of "  ")
  ∧ ¬ (Forall (λ c, ascii_space c = true) (str_of "a")
       ∧ Forall (λ c, ascii_space c = true) (str_of "  ")).
Proof.
  split_and!; [exact ascii_word_not_space|reflexivity|reflexivity|].
  apply (adjacent_tokens_differ_in_kind (cc := ascii_classes)
           ascii_word_not_space (str_of "a  b") 0 (str_of "a") (str_of "  "));
    reflexivity.
Defined.

(** ** More on paragraph extraction *)

Lemma find_at_found sub s pos :
  find_at sub s pos ≠ -1 →
  ∃ i, find_at sub s pos = pos + Z.of_nat i
       ∧ starts_with sub (drop i s) = true.
Proof.
  revert pos. induction s as [|c s IH]; intros pos; rewrite find_at_unfold.
  - destruct (starts_with sub []) eqn:H0; [|done].
    intros _. exists O. split; [lia|done].
  - destruct (starts_with sub (c :: s)) eqn:H0.
    + intros _. exists O. split; [lia|done].
    + intros Hne. destruct (IH _ Hne) as (i & -> & Hocc).
      exists (S i). split; [lia|done].
Qed.

Lemma find_at_none_inv sub s pos :
  0 ≤ pos → find_at sub s pos = -1 →
  ∀ i, starts_with sub (drop i s) = false.
Proof.
  revert pos. induction s as [|c s IH]; intros pos Hpos;
    rewrite find_at_unfold.
  - destruct (starts_with sub []) eqn:H0; [intros; lia|].
    intros _ i. by rewrite drop_nil.
  - destruct (starts_with sub (c :: s)) eqn:H0; [intros; lia|].
    intros Hnone [|i]; [done|]. apply (IH (pos + 1)); [lia|done].
Qed.

Lemma rfind_at_found sub s pos :
  rfind_at sub s pos ≠ -1 →
  ∃ i, starts_with sub (drop i s) = true.
Proof.
  revert pos. induction s as [|c s IH]; intros pos; cbn [rfind_at].
  - destruct (starts_with sub []) eqn:H0; [|done]. intros _. by exists O.
  - destruct (Z.eqb_spec (rfind_at sub s (pos + 1)) (-1)) as [Heq|Hne].
    + destruct (starts_with sub (c :: s)) eqn:H0; [|done].
      intros _. by exists O.
    + intros _. destruct (IH _ Hne) as (i & Hocc). by exists (S i).
Qed.

Lemma str_find_none_inv (text : str) :
  str_find text [PERIOD; SPACE] 150 = -1 →
  ∀ j, (150 ≤ j)%nat →
       ¬ (text !! j = Some PERIOD ∧ text !! S j = Some SPACE).
Proof.
  unfold str_find. intros Hfind j Hj Hocc.
  destruct (Nat.ltb_spec (length text) 150) as [Hshort|Hlong].
  - destruct Hocc as [Hd _]. apply lookup_lt_Some in Hd. lia.
  - apply starts_with_2 in Hocc.
    assert (0 ≤ Z.of_nat 150) as Hpos by lia.
    pose proof (find_at_none_inv _ _ _ Hpos Hfind (j - 150)%nat) as Hno.
    rewrite drop_drop in Hno.
    replace (150 + (j - 150))%nat with j in Hno by lia. congruence.
Qed.

Lemma paragraph_of_last_period (text : str) (q : nat) :
  (∀ j, (150 ≤ j)%nat →
        ¬ (text !! j = Some PERIOD ∧ text !! S j = Some SPACE)) →
  text !! q = Some PERIOD →
  (∀ j, (q < j)%nat → text !! j ≠ Some PERIOD) →
  paragraph_of text = take (S q) text.
Proof.
  intros Hno Hq Hlast. unfold paragraph_of.
  rewrite (no_period_space_find _ Hno). cbn [Z.eqb]. unfold str_rfind.
  rewrite (rfind_at_last _ _ 0 q); [|lia|by apply starts_with_1|].
  - destruct (Z.eqb_spec (0 + Z.of_nat q) (-1)); [lia|]. cbn [negb].
    rewrite Z.add_0_l. apply slice_to_S.
  - intros j Hj. destruct (starts_with _ _) eqn:E; [|done].
    apply starts_with_1 in E. by destruct (Hlast j Hj).
Qed.

Lemma paragraph_of_no_period (text : str) :
  (∀ j, text !! j ≠ Some PERIOD) → paragraph_of text = text.
Proof.
  intros Hnone. unfold paragraph_of.
  rewrite no_period_space_find; [|intros j _ [Hd _]; by destruct (Hnone j)].
  cbn [Z.eqb]. unfold str_rfind. rewrite rfind_at_none; [done|].
  intros i. destruct (starts_with _ _) eqn:E; [|done].
  apply starts_with_1 in E. by destruct (Hnone i).
Qed.

(** The three ways a paragraph is cut. *)
Lemma paragraph_of_cases (text : str) :
  (∃ p, (150 ≤ p)%nat
        ∧ text !! p = Some PERIOD ∧ text !! S p = Some SPACE
        ∧ (∀ j, (150 ≤ j < p)%nat →
                ¬ (text !! j = Some PERIOD ∧ text !! S j = Some SPACE))
        ∧ paragraph_of text = take (S p) text)
  ∨ (∃ q, (∀ j, (150 ≤ j)%nat →
                ¬ (text !! j = Some PERIOD ∧ text !! S j = Some SPACE))
          ∧ text !! q = Some PERIOD
          ∧ (∀ j, (q < j)%nat → text !! j ≠ Some PERIOD)
          ∧ paragraph_of text = take (S q) text)
  ∨ ((∀ j, text !! j ≠ Some PERIOD) ∧ paragraph_of text = text).
Proof.
  destruct (decide (str_find text [PERIOD; SPACE] 150 = -1)) as [Hfind|Hfind].
  - pose proof (str_find_none_inv _ Hfind) as Hno. right.
    destruct (decide (PERIOD ∈ text)) as [Hin|Hnin].
    + left. apply list_elem_of_lookup in Hin as [q0 Hq0].
      destruct (last_occurrence _ _ _ Hq0) as (q & _ & Hq & Hlast).
      exists q. split_and!; [done..|]. by apply paragraph_of_last_period.
    + right. assert (∀ j, text !! j ≠ Some PERIOD) as Hnone.
      { intros j Hj. apply Hnin. apply list_elem_of_lookup. eauto. }
      split; [done|]. by apply paragraph_of_no_period.
  - left. unfold str_find in Hfind.
    destruct (Nat.ltb_spec (length text) 150) as [Hshort|Hlong]; [done|].
    destruct (find_at_found _ _ _ Hfind) as (i0 & _ & Hocc0).
    destruct (least_occurrence _ _ _ Hocc0) as (i & _ & Hocc & Hleast).
    rewrite drop_drop in Hocc. apply starts_with_2 in Hocc as [Hd Hs].
    exists (150 + i)%nat.
    assert (∀ j, (150 ≤ j < 150 + i)%nat →
              ¬ (text !! j = Some PERIOD ∧ text !! S j = Some SPACE))
      as Hfirst.
    { intros j Hj Hocc. apply starts_with_2 in Hocc.
      specialize (Hleast (j - 150)%nat ltac:(lia)).
      rewrite drop_drop in Hleast.
      replace (150 + (j - 150))%nat with j in Hleast by lia. congruence. }
    split_and!; [lia|done|done|done|].
    by apply paragraph_of_first_period_space; [lia|..].
Qed.

Lemma last_take_S {A} (l : list A) (k : nat) (x : A) :
  l !! k = Some x → last (take (S k) l) = Some x.
Proof.
  intros Hk. apply lookup_lt_Some in Hk as Hlt.
  rewrite last_lookup, length_take, Nat.min_l by lia. cbn [pred].
  by rewrite lookup_take_lt by lia.
Qed.

(** X3: whatever the raw text, the extracted paragraph is a prefix of it,
    and it is either the whole text or ends in a period. *)
Theorem paragraph_is_prefix_ending_in_period (text : str) :
  paragraph_of text `prefix_of` text
  ∧ (paragraph_of text = text ∨ last (paragraph_of text) = Some PERIOD).
Proof.
  destruct (paragraph_of_cases text)
    as [(p & _ & Hp & _ & _ & ->)|[(q & _ & Hq & _ & ->)|[_ ->]]].
  - split; [apply prefix_take|]. right. by apply last_take_S.
  - split; [apply prefix_take|]. right. by apply last_take_S.
  - split; [done|by left].
Qed.

Lemma take_S_whole {A} (l : list A) (k : nat) (x : A) :
  l !! k = Some x → take (S k) (take (S k) l) = take (S k) l.
Proof. intros _. rewrite take_take. f_equal. lia. Qed.

(** X4: extracting a paragraph from an extracted paragraph changes
    nothing: the paragraph that enters the context window is its own
    extraction. *)
Theorem paragraph_of_idempotent (text : str) :
  paragraph_of (paragraph_of text) = paragraph_of text.
Proof.
  destruct (paragraph_of_cases text)
    as [(p & Hp150 & Hp & Hsp & Hfirst & ->)
       |[(q & Hno & Hq & Hlast & ->)|[_ Hwhole]]];
    [| |by rewrite !Hwhole].
  - rewrite (paragraph_of_last_period (take (S p) text) p).
    + by apply take_S_whole with (x := PERIOD).
    + intros j Hj [Hd Hs].
      apply lookup_take_Some in Hd as [Hd _].
      apply lookup_take_Some in Hs as [Hs Hlt].
      apply (Hfirst j); [lia|done].
    + by rewrite lookup_take_lt by lia.
    + intros j Hj Hd. apply lookup_take_Some in Hd as [_ Hlt]. lia.
  - rewrite (paragraph_of_last_period (take (S q) text) q).
    + by apply take_S_whole with (x := PERIOD).
    + intros j Hj [Hd Hs].
      apply lookup_take_Some in Hd as [Hd _].
      apply lookup_take_Some in Hs as [Hs _].
      by apply (Hno j).
    + by rewrite lookup_take_lt by lia.
    + intros j Hj Hd. apply lookup_take_Some in Hd as [_ Hlt]. lia.
Qed.

(** ** What every run keeps, interrupted or not *)

Lemma displayed_length_snoc l o :
  (length (displayed l) ≤ length (displayed (l ++ [o])))%nat.
Proof. rewrite displayed_snoc, length_app. lia. Qed.

Lemma hoare_tick_grows (P E : state → Prop) :
  grows P → (∀ st, P st → E st) → hoare P tick (λ _, P) E.
Proof.
  intros HP HE. eapply hoare_conseq; [apply (hoare_tick P)|done|done|done].
  intros st p Hst. by apply (HP st).
Qed.

Lemma hoare_print_to (P Q E : state → Prop) o :
  (∀ st p, P st → P (set_pending p st)) →
  (∀ st, P st → Q (add_output o st)) → (∀ st, P st → E st) →
  hoare P (print o) (λ _, Q) E.
Proof.
  intros Hp HQ HE. unfold print. eapply hoare_bind with (Q := λ _, P).
  - eapply hoare_conseq; [apply (hoare_tick P)|done|done|done]. done.
  - intros []. destruct (printable o); [by apply hoare_write|].
    by apply hoare_raise.
Qed.

Lemma hoare_sleep_grows (P E : state → Prop) secs :
  grows P → (∀ st, P st → E st) → hoare P (sleep secs) (λ _, P) E.
Proof.
  intros HP HE. eapply hoare_conseq; [apply (hoare_sleep P)|done|done|done].
  intros st p Hst. by apply (HP st).
Qed.

Lemma hoare_print_grows (P E : state → Prop) o :
  grows P → reported [o] = [] → (∀ st, P st → E st) →
  hoare P (print o) (λ _, P) E.
Proof.
  intros HP Ho HE. apply hoare_print_to; [|by intros st Hst; apply HP|done].
  intros st p Hst. by apply (HP st).
Qed.

Lemma in_bounds_grows : grows in_bounds.
Proof.
  intros st (Hc & Ht & Hs & Hr). split_and!; [done..|].
  intros o Ho. unfold in_bounds. cbn [frame stdout add_output].
  split_and!; [done|done|lia| |].
  - pose proof (displayed_length_snoc (stdout st) o). lia.
  - by rewrite reported_snoc, Hr, Ho.
Qed.

Lemma counting_grows n f : grows (counting n f).
Proof.
  intros st (Hb & Hf & Hn). destruct (in_bounds_grows st Hb) as (? & ? & ? &
      Ho).
  split_and!; [done..|].
  intros o Hr. split_and!; [by apply Ho|done|lia|].
  cbn [stdout add_output].
  pose proof (displayed_length_snoc (stdout st) o). lia.
Qed.

Section EveryRun.
Context {cc : CharClasses}.
Variable w : world.
Variable word_delay : float.

Lemma generate_with_ollama_grows P E prompt max_tokens :
  grows P → (∀ st, P st → E st) →
  hoare P (generate_with_ollama w prompt max_tokens) (λ _, P) E.
Proof.
  intros HP HE.
  assert (∀ o (v : pyval), reported [o] = [] →
            hoare P (print o;; mret v) (λ _, P) E) as Hprint.
  { intros o v Ho. eapply hoare_bind with (Q := λ _, P).
    - by apply hoare_print_grows.
    - intros []. by apply hoare_ret. }
  unfold generate_with_ollama, post_ollama.
  eapply hoare_bind with (Q := λ _, P).
  { eapply hoare_bind with (Q := λ _, P).
    - by apply hoare_tick_grows.
    - intros []. apply hoare_ollama_replies. intros st Hst. by apply HP. }
  intros [kind msg|status_code text json]; [by apply Hprint|].
  destruct (status_code =? 200).
  - destruct json; [by apply Hprint..|by apply hoare_ret].
  - eapply hoare_bind with (Q := λ _, P); [by apply hoare_print_grows|].
    intros []. by apply Hprint.
Qed.

Lemma generate_paragraph_grows P E context :
  grows P → (∀ st, P st → E st) →
  hoare P (generate_paragraph w context) (λ _, P) E.
Proof.
  intros HP HE. unfold generate_paragraph.
  eapply hoare_bind with (Q := λ _, P);
    [by apply generate_with_ollama_grows|].
  intros [new_text|]; [by apply hoare_ret|]. intros st Hst. by apply HE.
Qed.

Lemma post_word_server_grows P E p :
  grows P → (∀ st, P st → E st) →
  hoare P (post_word_server w p) (λ _, P) E.
Proof.
  intros HP HE. unfold post_word_server.
  eapply hoare_bind with (Q := λ _, P); [by apply hoare_tick_grows|].
  intros []. apply hoare_word_server_replies. intros st Hst. by apply HP.
Qed.

Lemma send_word_to_server_grows P E word n session_id :
  grows P → (∀ st, P st → E st) →
  hoare P (send_word_to_server w word n session_id) (λ _, P) E.
Proof.
  intros HP HE.
  assert (∀ o (b : bool), reported [o] = [] →
            hoare P (print o;; mret b) (λ _, P) E) as Hprint.
  { intros o b Ho. eapply hoare_bind with (Q := λ _, P).
    - by apply hoare_print_grows.
    - intros []. by apply hoare_ret. }
  unfold send_word_to_server.
  eapply hoare_bind with (Q := λ _, P); [by apply post_word_server_grows|].
  intros [kind msg|status_code text json].
  - by destruct kind; apply Hprint.
  - destruct (status_code =? 200); [by apply hoare_ret|].
    eapply hoare_bind with (Q := λ _, P); [by apply hoare_print_grows|].
    intros []. by apply Hprint.
Qed.

Lemma test_connection_grows P E :
  grows P → (∀ st, P st → E st) →
  hoare P (test_connection w) (λ _, P) E.
Proof.
  intros HP HE. unfold test_connection.
  eapply hoare_bind with (Q := λ _, P); [by apply hoare_print_grows|].
  intros [].
  eapply hoare_bind with (Q := λ _, P); [by apply post_word_server_grows|].
  intros [kind msg|status_code text json].
  - eapply hoare_bind with (Q := λ _, P); [by apply hoare_print_grows|].
    intros []. by apply hoare_print_grows.
  - destruct (status_code =? 200); [by apply hoare_print_grows|].
    eapply hoare_bind with (Q := λ _, P); [by apply hoare_print_grows|].
    intros [].
    eapply hoare_bind with (Q := λ _, P); [by apply hoare_print_grows|].
    intros []. by apply hoare_print_grows.
Qed.

Lemma for_word_in_counting words n f session_id :
  hoare (counting n f) (for_word_in w words n session_id word_delay)
    (λ v, counting v f) in_bounds.
Proof.
  assert (∀ k st, counting k f st → in_bounds st) as Hweak
    by (by intros k st (? & _)).
  revert n. induction words as [|word words IH]; intros n.
  - by apply hoare_ret.
  - cbn [for_word_in].
    eapply hoare_bind with (Q := λ _, counting n f).
    { destruct (ENABLE_POSTING w); [|by apply hoare_ret].
      eapply hoare_bind with (Q := λ _, counting n f).
      - apply send_word_to_server_grows; [apply counting_grows|apply Hweak].
      - intros []; cbn [negb]; [by apply hoare_ret|].
        apply hoare_print_grows; [apply counting_grows|done|apply Hweak]. }
    intros [].
    eapply hoare_bind with (Q := λ _, counting (n + 1) f).
    { apply hoare_print_to; [|
        |apply Hweak].
      - intros st p Hst. by apply (counting_grows n f st).
      - intros st (Hb & Hf & Hn).
        destruct (in_bounds_grows st Hb) as (_ & _ & _ & Ho).
        split_and!; [by apply Ho|done|lia|].
        cbn [stdout add_output]. rewrite displayed_snoc, length_app.
        assert (displayed [Token word] = [word]) as -> by done.
        cbn [length]. lia. }
    intros [].
    eapply hoare_bind with (Q := λ _, counting (n + 1) f).
    { apply hoare_sleep_grows; [apply counting_grows|apply Hweak]. }
    intros []. apply IH.
Qed.

Lemma loop_body_in_bounds session_id :
  hoare in_bounds (loop_body w session_id word_delay) (λ _, in_bounds)
      in_bounds.
Proof.
  assert (∀ v, grows (λ st, in_bounds st ∧ v = frame st)) as Hgrows.
  { intros v st [Hb ->]. destruct (in_bounds_grows st Hb) as (? & ? & ? & ?).
    split_and!; intros; by split; auto. }
  assert (∀ v n,
    hoare (λ st, in_bounds st ∧ v = frame st)
      (n ← display_and_send_paragraph_word_by_word w n
             (sequence_number v) session_id word_delay;
       assign (λ v, {| sequence_number := n;
                       context_paragraphs := context_paragraphs v;
                       total_paragraphs := total_paragraphs v |}))
      (λ _, in_bounds) in_bounds) as Hdisplay.
  { intros v paragraph.
    eapply hoare_bind with (Q := λ n, counting n v).
    - eapply hoare_conseq;
      [apply (for_word_in_counting _ (sequence_number v) v)| |done|done].
      intros st [Hb ->]. split; [done|]. split; [done|].
      by destruct Hb as (_ & _ & ? & _).
    - intros n. apply hoare_assign.
      intros st ((Hc & Ht & _ & Hr) & <- & Hn). unfold in_bounds.
      cbn [frame set_frame stdout context_paragraphs total_paragraphs
             sequence_number]. split_and!; (done || lia). }
  unfold loop_body.
  eapply hoare_bind; [apply hoare_get_frame|]. intros v.
  eapply hoare_bind with (Q := λ _ st, in_bounds st ∧ v = frame st).
  { apply generate_paragraph_grows; [apply Hgrows|by intros st [? _]]. }
  intros paragraph.
  eapply hoare_bind with (Q := λ n, counting n v).
  { eapply hoare_conseq;
      [apply (for_word_in_counting _ (sequence_number v) v)| |done|done].
    intros st [Hb ->]. split; [done|]. split; [done|].
    by destruct Hb as (_ & _ & ? & _). }
  intros n.
  eapply hoare_bind with (Q := λ _, in_bounds).
  { apply hoare_assign.
    intros st ((Hc & Ht & _ & Hr) & <- & Hn). unfold in_bounds.
    cbn [frame set_frame stdout context_paragraphs total_paragraphs
           sequence_number]. split_and!; (done || lia). }
  intros [].
  eapply hoare_bind with (Q := λ _, in_bounds).
  { apply hoare_assign. intros st (Hc & Ht & Hs & Hr). unfold in_bounds.
    cbn [frame set_frame stdout context_paragraphs total_paragraphs
           sequence_number].
    split_and!; [|done|lia|lia|done].
    rewrite append_context_drop, length_drop, length_app. cbn [length]. lia. }
  intros [].
  eapply hoare_bind with (Q := λ _, in_bounds).
  { apply hoare_assign. intros st (Hc & Ht & Hs & Hr). unfold in_bounds.
    cbn [frame set_frame stdout context_paragraphs total_paragraphs
           sequence_number].
    split_and!; (done || lia). }
  intros [].
  eapply hoare_bind with (Q := λ _, in_bounds).
  { by apply hoare_print_grows; [apply in_bounds_grows|..]. }
  intros [].
  eapply hoare_bind; [apply hoare_get_frame|]. intros v'.
  apply Hdisplay.
Qed.

Lemma while_before_end_in_bounds fuel k session_id :
  hoare in_bounds (while_before_end w fuel k session_id word_delay)
    (λ _, in_bounds) in_bounds.
Proof.
  revert k. induction fuel as [|fuel IH]; intros k; cbn [while_before_end].
  - by intros st Hst.
  - destruct (before_deadline w k); [|by apply hoare_ret].
    eapply hoare_bind; [apply loop_body_in_bounds|]. intros []. apply IH.
Qed.

Lemma storytelling_in_bounds fuel max_time_minutes :
  hoare in_bounds (paragraph_based_storytelling w fuel max_time_minutes
      word_delay)
    (λ _ st,
       (length (context_paragraphs (frame st)) ≤ 5)%nat
       ∧ 0 ≤ total_paragraphs (frame st)
       ∧ 0 ≤ sequence_number (frame st)
       ∧ ∃ n, reported (stdout st) = [(n, uuid4 w)]
              ∧ 0 ≤ n ≤ Z.of_nat (length (displayed (stdout st))))
    in_bounds.
Proof.
  pose proof in_bounds_grows as Hgrows.
  unfold paragraph_based_storytelling.
  eapply hoare_bind with (Q := λ _, in_bounds).
  { destruct (ENABLE_POSTING w); [by apply test_connection_grows|].
    by apply hoare_ret. }
  intros [].
  eapply hoare_bind with (Q := λ _, in_bounds).
  { apply hoare_assign. intros st (Hc & Ht & Hs & Hr). unfold in_bounds.
    cbn [frame set_frame stdout context_paragraphs total_paragraphs
           sequence_number length].
    split_and!; (done || lia). }
  intros [].
  eapply hoare_bind with (Q := λ _, in_bounds);
    [by apply hoare_print_grows|]. intros [].
  eapply hoare_bind with (Q := λ _, in_bounds);
    [by apply hoare_print_grows|]. intros [].
  eapply hoare_bind with (Q := λ _, in_bounds).
  { destruct max_time_minutes as [m|];
      [destruct (m =? 0)|]; by apply hoare_print_grows. }
  intros [].
  eapply hoare_bind with (Q := λ _, in_bounds);
    [by apply hoare_print_grows|]. intros [].
  eapply hoare_bind with (Q := λ _, in_bounds).
  { apply hoare_except; [apply while_before_end_in_bounds|].
    by apply hoare_print_grows. }
  intros [].
  eapply hoare_bind; [apply hoare_get_frame|]. intros v.
  eapply hoare_bind with (Q := λ _ st, in_bounds st ∧ v = frame st).
  { apply hoare_print_grows; [|done|by intros st [? _]].
    intros st [Hb ->]. destruct (Hgrows st Hb) as (? & ? & ? & ?).
    split_and!; intros; by split; auto. }
  intros [].
  apply hoare_print_to; [| |by intros st [? _]].
  - intros st p [Hb ->]. split; [by apply Hgrows|done].
  - intros st [(Hc & Ht & Hs & Hr) ->]. cbn [frame stdout add_output].
    split_and!; [done|done|lia|]. exists (sequence_number (frame st)).
    rewrite reported_snoc, Hr. split; [done|].
    pose proof (displayed_length_snoc (stdout st)
                  (SentWords (sequence_number (frame st)) (uuid4 w))). lia.
Qed.

Lemma for_word_in_grows P E words n session_id :
  grows P → (∀ st, P st → E st) →
  hoare P (for_word_in w words n session_id word_delay) (λ _, P) E.
Proof.
  intros HP HE. revert n. induction words as [|word words IH]; intros n.
  - by apply hoare_ret.
  - cbn [for_word_in].
    eapply hoare_bind with (Q := λ _, P).
    { destruct (ENABLE_POSTING w); [|by apply hoare_ret].
      eapply hoare_bind with (Q := λ _, P);
        [by apply send_word_to_server_grows|].
      intros []; cbn [negb]; [by apply hoare_ret|].
      by apply hoare_print_grows. }
    intros [].
    eapply hoare_bind with (Q := λ _, P); [by apply hoare_print_grows|].
    intros [].
    eapply hoare_bind with (Q := λ _, P); [by apply hoare_sleep_grows|].
    intros []. apply IH.
Qed.

Lemma frame_grows f : grows (λ st, frame st = f).
Proof. intros st Hst. by split_and!. Qed.

(** A call of [display_and_send_paragraph_word_by_word] that returns,
    returns the number it was given plus the number of tokens and leaves
    the frame as it was. *)
Lemma display_value_and_frame paragraph n session_id f :
  hoare (λ st, frame st = f)
    (display_and_send_paragraph_word_by_word w paragraph n session_id
       word_delay)
    (λ v st, v = n + Z.of_nat (length (findall paragraph)) ∧ frame st = f)
    (λ _, True).
Proof.
  intros st Hst. unfold display_and_send_paragraph_word_by_word.
  pose proof (for_word_in_value w (findall paragraph) n session_id
                word_delay st I) as Hv.
  pose proof (for_word_in_grows (λ st, frame st = f) (λ _, True)
                (findall paragraph) n session_id (frame_grows f)
                (λ _ _, I) st Hst) as Hf.
  by destruct (for_word_in _ _ _ _ _ _) as [[v|e|] st'].
Qed.

(** A round that returns, from any state: the model client gave a text,
    and the frame's counters advanced by the tokens of its paragraph plus
    one and by one. *)
Lemma loop_body_advances session_id st0 :
  hoare (λ st, st = st0) (loop_body w session_id word_delay)
    (λ _ st,
       ∃ t,
         (generate_with_ollama w
            (format_prompt (context_paragraphs (frame st0))) 300 st0).1
         = Ret (PyStr t)
         ∧ frame st
           = {| sequence_number :=
                  sequence_number (frame st0)
                  + Z.of_nat (length (findall (paragraph_of t))) + 1;
                context_paragraphs :=
                  append_context (context_paragraphs (frame st0))
                    (paragraph_of t);
                total_paragraphs := total_paragraphs (frame st0) + 1 |})
    (λ _, True).
Proof.
  unfold loop_body.
  eapply hoare_bind with (Q := λ v st, v = frame st0 ∧ st = st0);
    [by intros st ->|].
  intros v. apply hoare_pre_pure. intros ->.
  eapply hoare_bind with
    (Q := λ p st,
       ∃ t,
         (generate_with_ollama w
            (format_prompt (context_paragraphs (frame st0))) 300 st0).1
         = Ret (PyStr t)
         ∧ p = paragraph_of t ∧ frame st = frame st0).
  { intros st ->. unfold generate_paragraph, mbind, M_bind.
    pose proof (generate_with_ollama_grows (λ st, frame st = frame st0)
                  (λ _, True)
                  (format_prompt (context_paragraphs (frame st0))) 300
                  (frame_grows _) (λ _ _, I) st0 eq_refl) as Hkeep.
    destruct (generate_with_ollama w _ 300 st0) as [[[t|]|e|] st1];
      cbn; [|done..].
    by exists t. }
  intros paragraph.
  assert (∀ (P : str → state → Prop) (m : M ()) Q,
    (∀ t, hoare (P t) m Q (λ _, True)) →
    hoare (λ st, ∃ t, P t st) m Q (λ _, True)) as Hex.
  { intros P m Q Hm st [t Hst]. by apply (Hm t). }
  apply Hex. intros t. apply hoare_pre_pure. intros Hgen.
  apply hoare_pre_pure. intros ->.
  eapply hoare_bind; [apply display_value_and_frame|]. intros n.
  apply hoare_pre_pure. intros ->.
  eapply hoare_bind with
    (Q := λ _ st,
       frame st
       = {| sequence_number :=
              sequence_number (frame st0)
              + Z.of_nat (length (findall (paragraph_of t)));
            context_paragraphs := context_paragraphs (frame st0);
            total_paragraphs := total_paragraphs (frame st0) |}).
  { apply hoare_assign. intros st Hst. cbn [frame set_frame]. by rewrite Hst. }
  intros [].
  eapply hoare_bind with
    (Q := λ _ st,
       frame st
       = {| sequence_number :=
              sequence_number (frame st0)
              + Z.of_nat (length (findall (paragraph_of t)));
            context_paragraphs :=
              append_context (context_paragraphs (frame st0))
                (paragraph_of t);
            total_paragraphs := total_paragraphs (frame st0) |}).
  { apply hoare_assign. intros st Hst. cbn [frame set_frame]. by rewrite Hst. }
  intros [].
  eapply hoare_bind with
    (Q := λ _ st,
       frame st
       = {| sequence_number :=
              sequence_number (frame st0)
              + Z.of_nat (length (findall (paragraph_of t)));
            context_paragraphs :=
              append_context (context_paragraphs (frame st0))
                (paragraph_of t);
            total_paragraphs := total_paragraphs (frame st0) + 1 |}).
  { apply hoare_assign. intros st Hst. cbn [frame set_frame]. by rewrite Hst. }
  intros [].
  eapply hoare_bind; [by apply hoare_print_grows; [apply frame_grows|..]|].
  intros [].
  eapply hoare_bind; [apply hoare_get_frame|]. intros v.
  eapply hoare_bind with
    (Q := λ n st,
       n = sequence_number v + 1
       ∧ frame st
         = {| sequence_number :=
                sequence_number (frame st0)
                + Z.of_nat (length (findall (paragraph_of t)));
              context_paragraphs :=
                append_context (context_paragraphs (frame st0))
                  (paragraph_of t);
              total_paragraphs := total_paragraphs (frame st0) + 1 |}
       ∧ v = frame st).
  { intros st [Hst ->].
    pose proof (display_value_and_frame [NEWLINE]
                  (sequence_number (frame st)) session_id (frame st) st
                  eq_refl) as Hrun.
    destruct (display_and_send_paragraph_word_by_word _ _ _ _ _ _)
      as [[n|e|] st']; [|done..].
    destruct Hrun as [-> Hf]. rewrite findall_single, Hf. by cbn. }
  intros n. apply hoare_pre_pure. intros ->.
  apply hoare_assign. intros st [Hst ->]. exists t. split; [done|].
  cbn [frame set_frame]. by rewrite Hst.
Qed.

End EveryRun.

Lemma start_in_bounds w : in_bounds (start w).
Proof. unfold in_bounds. cbn. split_and!; (done || lia). Qed.





(** ** The summary of a run that Ctrl-C does not reach *)

Lemma hoare_at {A} (P : state → Prop) (m : M A) Q E :
  (∀ st0, P st0 → hoare (λ st, st = st0) m Q E) → hoare P m Q E.
Proof. intros Hm st HP. by apply (Hm st HP). Qed.

Lemma tallied_print o E :
  displayed [o] = [] → reported [o] = [] →
  hoare tallied (print o) (λ _, tallied) E.
Proof.
  intros Hd Hr.
  apply hoare_print_calm; [by apply silent_printable|by intros st (? & _)|].
  intros st (Hq & Hs & Ht & Hrep). unfold tallied.
  cbn [pending frame stdout prompts add_output].
  by rewrite displayed_snoc, reported_snoc, Hd, Hr, !app_nil_r.
Qed.

Section Tally.
Context {cc : CharClasses}.
Variable w : world.
Variable word_delay : float.
Hypothesis delay_accepted : sleep_error word_delay = None.
Hypothesis replies_are_text :
  ∀ k prompt, ∃ t,
    generated (ollama w k prompt) = PyStr t
    ∧ forallb encodable (findall (paragraph_of t)) = true.

Lemma tallied_loop_body session_id :
  hoare tallied (loop_body w session_id word_delay) (λ _, tallied) (λ _, False).
Proof.
  apply hoare_at. intros st0 (Hq & Hs & Ht & Hrep).
  destruct (replies_are_text (length (prompts st0))
              (format_prompt (context_paragraphs (frame st0))))
    as (t & Hgen & Hwords).
  eapply hoare_conseq;
    [apply (calm_loop_body w word_delay st0 session_id (frame st0) t
              (λ _, False) Hgen delay_accepted Hwords)
    | |
    |done].
  - intros st ->. by apply calm_since_refl.
  - intros [] st (Hf & Hq' & Hp & Hd & Hr). unfold tallied.
    rewrite Hf, Hp, Hd, Hr.
    cbn [sequence_number total_paragraphs].
    rewrite !length_app. cbn [length]. split_and!; [done|lia|lia|done].
Qed.

Lemma tallied_while_before_end fuel k session_id j :
  (k ≤ j < k + fuel)%nat → before_deadline w j = false →
  hoare tallied (while_before_end w fuel k session_id word_delay)
    (λ _, tallied) (λ _, False).
Proof.
  revert k. induction fuel as [|fuel IH]; intros k Hj Hend; [lia|].
  cbn [while_before_end].
  destruct (before_deadline w k) eqn:Hk; [|by apply hoare_ret].
  eapply hoare_bind; [apply tallied_loop_body|]. intros [].
  apply IH; [|done]. destruct (decide (j = k)) as [->|]; [congruence|lia].
Qed.

Lemma tallied_storytelling fuel max_time_minutes j :
  (j < fuel)%nat → before_deadline w j = false →
  hoare (λ st, pending st = None ∧ prompts st = []
               ∧ displayed (stdout st) = [] ∧ reported (stdout st) = [])
    (paragraph_based_storytelling w fuel max_time_minutes word_delay)
    (λ _ st,
       reported (stdout st)
       = [(Z.of_nat (length (displayed (stdout st))), uuid4 w)]
       ∧ sequence_number (frame st)
         = Z.of_nat (length (displayed (stdout st)))
       ∧ total_paragraphs (frame st) = Z.of_nat (length (prompts st)))
    (λ _, False).
Proof.
  intros Hj Hend. unfold paragraph_based_storytelling.
  eapply hoare_bind with
    (Q := λ _ st, pending st = None ∧ prompts st = []
                  ∧ displayed (stdout st) = [] ∧ reported (stdout st) = []).
  { intros st (Hq & Hp & Hd & Hr).
    destruct (test_connection_unobserved w st Hq) as (Hret & Hq' & Hobs).
    destruct ((if ENABLE_POSTING w then test_connection w else mret ()) st)
      as [r st']. cbn [fst snd] in *. subst r.
    injection Hobs as Hp' _ Hd' Hr'. by rewrite Hp', Hd', Hr'. }
  intros [].
  eapply hoare_bind with (Q := λ _, tallied).
  { apply hoare_assign. intros st (Hq & Hp & Hd & Hr). unfold tallied.
    cbn [pending frame stdout prompts set_frame sequence_number
           total_paragraphs]. by rewrite Hp, Hd. }
  intros [].
  eapply hoare_bind; [by apply tallied_print|]. intros [].
  eapply hoare_bind; [by apply tallied_print|]. intros [].
  eapply hoare_bind with (Q := λ _, tallied).
  { destruct max_time_minutes as [m|];
      [destruct (m =? 0)|]; by apply tallied_print. }
  intros [].
  eapply hoare_bind; [by apply tallied_print|]. intros [].
  eapply hoare_bind with (Q := λ _, tallied).
  { apply hoare_except.
    - apply (tallied_while_before_end _ _ _ j); [lia|done].
    - by intros st []. }
  intros [].
  eapply hoare_bind; [apply hoare_get_frame|]. intros v.
  eapply hoare_bind with (Q := λ _ st, tallied st ∧ v = frame st).
  { apply hoare_print_calm; [done|by intros st [(? & _) _]|].
    intros st [(Hq & Hs & Ht & Hr) ->]. split; [|done]. unfold tallied.
    cbn [pending frame stdout prompts add_output].
    rewrite displayed_snoc, reported_snoc.
    assert (displayed [Generated (total_paragraphs (frame st))] = [])
      as -> by done.
    assert (reported [Generated (total_paragraphs (frame st))] = [])
      as -> by done.
    by rewrite !app_nil_r. }
  intros [].
  apply hoare_print_calm; [done|by intros st [(? & _) _]|].
  intros st [(Hq & Hs & Ht & Hr) ->].
  cbn [frame stdout prompts add_output].
  rewrite displayed_snoc, reported_snoc, Hr.
  assert (displayed [SentWords (sequence_number (frame st)) (uuid4 w)] = [])
    as -> by done.
  rewrite app_nil_r. split_and!; [|done|done]. by rewrite Hs.
Qed.

End Tally.



(** ** A model reply that is no text *)

Lemma bind_raise {A B} (m : M A) (f : A → M B) st e st' :
  m st = (Raise e, st') → (m ≫= f) st = (Raise e, st').
Proof. intros Hm. unfold mbind, M_bind. by rewrite Hm. Qed.

Lemma bind_print {B} o (f : () → M B) st :
  printable o = true →
  pending st = None → (print o ≫= f) st = f () (add_output o st).
Proof. intros Ho Hq. apply bind_run. by apply print_calm. Qed.

Lemma except_passes body handler st st' :
  body st = (Raise AttributeError, st') →
  except_KeyboardInterrupt body handler st = (Raise AttributeError, st').
Proof. intros Hb. unfold except_KeyboardInterrupt. by rewrite Hb. Qed.

Section NoText.
Context {cc : CharClasses}.
Variable w : world.
Variable word_delay : float.

Lemma loop_body_no_text session_id st :
  pending st = None →
  generated (ollama w (length (prompts st))
               (format_prompt (context_paragraphs (frame st)))) = PyNonStr →
  ∃ st',
    loop_body w session_id word_delay st = (Raise AttributeError, st')
    ∧ frame st' = frame st
    ∧ posts st' = posts st
    ∧ displayed (stdout st') = displayed (stdout st)
    ∧ reported (stdout st') = reported (stdout st).
Proof.
  intros Hq Hgen.
  destruct (hoare_returns _ _ _ st
              (calm_generate_value w st (frame st)
                 (format_prompt (context_paragraphs (frame st))) 300 _)
              (calm_since_refl st Hq))
    as (v & st' & Hrun & -> & _ & _ & Hf & Hp & Hd & Hr).
  exists st'. rewrite !app_nil_r in *. split_and!; [|done..].
  unfold loop_body. rewrite (bind_run get_frame _ st (frame st) st eq_refl).
  apply bind_raise. unfold generate_paragraph.
  rewrite (bind_run _ _ _ _ _ Hrun). by rewrite Hgen.
Qed.


End NoText.


(** ** The failure mark *)

Lemma failure_dots_snoc l o :
  failure_dots (l ++ [o]) = (failure_dots l + failure_dots [o])%nat.
Proof. unfold failure_dots. by rewrite omap_app, length_app. Qed.

Section Dots.
Context {cc : CharClasses}.
Variable w : world.
Variable word_delay : float.

Lemma send_word_to_server_marks word n session_id st :
  pending st = None →
  ∃ st',
    send_word_to_server w word n session_id st
    = (Ret (accepted
              (word_server w (length (posts st)) (Word word n session_id))),
       st')
    ∧ pending st' = None
    ∧ posts st' = posts st ++ [Word word n session_id]
    ∧ failure_dots (stdout st') = failure_dots (stdout st).
Proof.
  intros Hq. unfold send_word_to_server, mbind, M_bind.
  rewrite (post_word_server_calm _ _ _ Hq).
  destruct (word_server w (length (posts st)) (Word word n session_id))
    as [kind msg|status_code text json]; cbn [accepted].
  - destruct kind; rewrite print_calm by done; eexists;
      (split; [done|]); cbn [pending posts stdout add_output add_post];
      rewrite failure_dots_snoc; split_and!; (done || by rewrite Nat.add_0_r).
  - destruct (status_code =? 200).
    + eexists. split; [done|]. by split_and!.
    + rewrite !print_calm by done. eexists. split; [done|].
      cbn [pending posts stdout add_output add_post].
      rewrite !failure_dots_snoc. split_and!; [done|done|].
      by rewrite !Nat.add_0_r.
Qed.

Lemma for_word_in_marks words n session_id st :
  pending st = None → ENABLE_POSTING w = true →
  sleep_error word_delay = None →
  forallb encodable words = true →
  ∃ st',
    for_word_in w words n session_id word_delay st
    = (Ret (n + Z.of_nat (length words)), st')
    ∧ failure_dots (stdout st')
      = (failure_dots (stdout st)
         + refused w words (length (posts st)) n session_id)%nat.
Proof.
  intros Hq Hon Hdelay. revert n st Hq.
  induction words as [|word words IH]; intros n st Hq Hwords.
  - exists st. cbn [for_word_in refused length].
    change (Z.of_nat 0) with 0. rewrite Z.add_0_r. split; [done|lia].
  - cbn [for_word_in refused]. rewrite Hon. cbn [forallb] in Hwords.
    apply andb_true_iff in Hwords as [Hword Hwords].
    destruct (send_word_to_server_marks word n session_id st Hq)
      as (st1 & Hsend & Hq1 & Hp1 & Hd1).
    set (r := word_server w (length (posts st)) (Word word n session_id))
      in *.
    assert (∃ st2,
      (send_success ← send_word_to_server w word n session_id;
       if negb send_success then print FailureDot else mret ()) st
      = (Ret (), st2)
      ∧ pending st2 = None ∧ posts st2 = posts st1
      ∧ failure_dots (stdout st2)
        = (failure_dots (stdout st)
           + if accepted r then 0 else 1)%nat) as (st2 & Hblock & Hq2 & Hp2 &
               Hd2).
    { rewrite (bind_run _ _ _ _ _ Hsend). destruct (accepted r); cbn [negb].
      - exists st1. split_and!; [done|done|done|lia].
      - rewrite print_calm by done. eexists. split; [done|].
        cbn [pending posts stdout add_output].
        rewrite failure_dots_snoc, Hd1. by split_and!. }
    rewrite (bind_run _ _ _ _ _ Hblock).
    rewrite bind_print by done.
    rewrite (bind_run (sleep word_delay) _ _ () _
               (sleep_calm word_delay (add_output (Token word) st2)
                  Hdelay Hq2)).
    destruct (IH (n + 1) (add_output (Token word) st2) Hq2 Hwords)
      as (st' & Hrun & Hd').
    exists st'. rewrite Hrun.
    split; [f_equal; f_equal; cbn [length]; lia|].
    rewrite Hd'. cbn [posts stdout add_output].
    rewrite failure_dots_snoc, Hd2, Hp2, Hp1, length_app. cbn [length].
    replace (length (posts st) + 1)%nat with (S (length (posts st))) by lia.
    assert (failure_dots [Token word] = O) as -> by done. lia.
Qed.


End Dots.


(** ** A token that stdout cannot encode, a delay that is not taken *)

Section Failures.
Context {cc : CharClasses}.
Variable w : world.
Variable word_delay : float.

Lemma for_word_in_app words1 words2 n session_id st :
  for_word_in w (words1 ++ words2) n session_id word_delay st
  = match for_word_in w words1 n session_id word_delay st with
    | (Ret v, st') => for_word_in w words2 v session_id word_delay st'
    | (Raise e, st') => (Raise e, st')
    | (Running, st') => (Running, st')
    end.
Proof.
  revert n st. induction words1 as [|word words1 IH]; intros n st; [done|].
  cbn [for_word_in app]. unfold mbind, M_bind.
  repeat lazymatch goal with
         | |- context [let (_, _) := ?m ?s in _] =>
             destruct (m s) as [[[]|?|] ?]; [|done..]
         end.
  apply IH.
Qed.

(** The first word is posted, if posting is on, and then displayed or
    not. *)
Lemma first_word_sent word n session_id st :
  pending st = None →
  ∃ st1,
    (if ENABLE_POSTING w then
       send_success ← send_word_to_server w word n session_id;
       if negb send_success then print FailureDot else mret ()
     else mret ()) st = (Ret (), st1)
    ∧ pending st1 = None
    ∧ posts st1
      = posts st ++ (if ENABLE_POSTING w then [Word word n session_id]
                     else [])
    ∧ displayed (stdout st1) = displayed (stdout st).
Proof.
  intros Hq.
  destruct (hoare_returns _ _ _ st
              (calm_send w st (frame st) [] [] [] word n session_id _)
              (calm_since_refl st Hq))
    as ([] & st1 & Hrun & Hq1 & _ & _ & Hp1 & Hd1 & _).
  exists st1. rewrite app_nil_r in Hd1. by split_and!.
Qed.



End Failures.



(** ** The prompt of the next round *)

Lemma join_snoc sep (l : list str) (p : str) :
  join sep (l ++ [p])
  = match l with [] => p | _ => join sep l ++ sep ++ p end.
Proof.
  induction l as [|x l IH]; [done|].
  change ((x :: l) ++ [p]) with (x :: (l ++ [p])).
  destruct l as [|y l]; [done|].
  change (join sep (x :: (y :: l) ++ [p]))
    with (x ++ sep ++ join sep ((y :: l) ++ [p])).
  rewrite IH. change (join sep (x :: y :: l))
    with (x ++ sep ++ join sep (y :: l)).
  by rewrite <- !app_assoc.
Qed.

(** X10: the prompt built from the window to which a paragraph was just
    appended begins with the system prompt and ends with that paragraph:
    the model is asked to continue from the text emitted last. *)
Theorem next_prompt_ends_with_paragraph
    (context_paragraphs : list str) (paragraph : str) :
  SYSTEM_PROMPT `prefix_of`
    format_prompt (append_context context_paragraphs paragraph)
  ∧ paragraph `suffix_of`
      format_prompt (append_context context_paragraphs paragraph).
Proof.
  split; [by eexists|].
  rewrite append_context_drop.
  rewrite drop_app_le by lia.
  set (l := drop _ context_paragraphs). unfold format_prompt.
  assert (∃ a, join [NEWLINE; NEWLINE] (l ++ [paragraph]) = a ++ paragraph)
    as [a Ha].
  { rewrite join_snoc. destruct l; [by exists []|].
    eexists. by rewrite !app_assoc. }
  destruct (l ++ [paragraph]) eqn:Hl; [by destruct l|]. rewrite Ha.
  eexists. by rewrite !app_assoc.
Qed.

(** ** With posting off, nothing goes to the word server *)

Section PostingOff.
Context {cc : CharClasses}.
Variable w : world.
Variable word_delay : float.
Hypothesis posting_off : ENABLE_POSTING w = false.

Lemma no_posts_only : posts_frame_only (λ st, posts st = []).
Proof. intros st st' Hp _. by rewrite Hp. Qed.

Lemma for_word_in_posts_nothing words n session_id :
  hoare (λ st, posts st = []) (for_word_in w words n session_id word_delay)
    (λ _ st, posts st = []) (λ st, posts st = []).
Proof.
  pose proof no_posts_only as Honly.
  revert n. induction words as [|word words IH]; intros n.
  - by apply hoare_ret.
  - cbn [for_word_in]. rewrite posting_off.
    eapply hoare_bind with (Q := λ _ st, posts st = []);
      [by apply hoare_ret|]. intros [].
    eapply hoare_bind; [by apply hoare_print_keeps|]. intros [].
    eapply hoare_bind; [by apply hoare_sleep_keeps|]. intros []. apply IH.
Qed.

Lemma loop_body_posts_nothing session_id :
  hoare (λ st, posts st = []) (loop_body w session_id word_delay)
    (λ _ st, posts st = []) (λ st, posts st = []).
Proof.
  pose proof no_posts_only as Honly. unfold loop_body.
  eapply hoare_bind with (Q := λ _ st, posts st = []);
    [by intros st Hst|]. intros v.
  eapply hoare_bind; [by apply generate_paragraph_keeps|]. intros paragraph.
  eapply hoare_bind; [apply for_word_in_posts_nothing|]. intros n.
  eapply hoare_bind with (Q := λ _ st, posts st = []);
    [by apply hoare_assign|]. intros [].
  eapply hoare_bind with (Q := λ _ st, posts st = []);
    [by apply hoare_assign|]. intros [].
  eapply hoare_bind with (Q := λ _ st, posts st = []);
    [by apply hoare_assign|]. intros [].
  eapply hoare_bind; [by apply hoare_print_keeps|]. intros [].
  eapply hoare_bind with (Q := λ _ st, posts st = []);
    [by intros st Hst|]. intros v'.
  eapply hoare_bind; [apply for_word_in_posts_nothing|]. intros n'.
  by apply hoare_assign.
Qed.

Lemma while_before_end_posts_nothing fuel k session_id :
  hoare (λ st, posts st = []) (while_before_end w fuel k session_id word_delay)
    (λ _ st, posts st = []) (λ st, posts st = []).
Proof.
  revert k. induction fuel as [|fuel IH]; intros k; cbn [while_before_end].
  - by intros st Hst.
  - destruct (before_deadline w k); [|by apply hoare_ret].
    eapply hoare_bind; [apply loop_body_posts_nothing|]. intros []. apply IH.
Qed.

Lemma storytelling_posts_nothing fuel max_time_minutes :
  hoare (λ st, posts st = [])
    (paragraph_based_storytelling w fuel max_time_minutes word_delay)
    (λ _ st, posts st = []) (λ st, posts st = []).
Proof.
  pose proof no_posts_only as Honly.
  unfold paragraph_based_storytelling. rewrite posting_off.
  eapply hoare_bind with (Q := λ _ st, posts st = []);
    [by apply hoare_ret|]. intros [].
  eapply hoare_bind with (Q := λ _ st, posts st = []);
    [by apply hoare_assign|]. intros [].
  eapply hoare_bind; [by apply hoare_print_keeps|]. intros [].
  eapply hoare_bind; [by apply hoare_print_keeps|]. intros [].
  eapply hoare_bind with (Q := λ _ st, posts st = []).
  { destruct max_time_minutes as [m|];
      [destruct (m =? 0)|]; by apply hoare_print_keeps. }
  intros [].
  eapply hoare_bind; [by apply hoare_print_keeps|]. intros [].
  eapply hoare_bind with (Q := λ _ st, posts st = []).
  { apply hoare_except; [apply while_before_end_posts_nothing|].
    by apply hoare_print_keeps. }
  intros [].
  eapply hoare_bind with (Q := λ _ st, posts st = []);
    [by intros st Hst|]. intros v.
  eapply hoare_bind; [by apply hoare_print_keeps|]. intros [].
  by apply hoare_print_keeps.
Qed.

(** X11: with posting off, a run sends nothing at all to the word server,
    not even the connectivity probe, however the run ends. *)
Theorem posting_off_sends_nothing (fuel : nat)
    (max_time_minutes : option Z) :
  posts (paragraph_based_storytelling w fuel max_time_minutes word_delay (start
      w)).2
  = [].
Proof.
  pose proof (storytelling_posts_nothing fuel max_time_minutes (start w)
                eq_refl) as Hrun.
  by destruct (paragraph_based_storytelling w fuel max_time_minutes word_delay
                 (start w)) as [[[]|e|] st].
Qed.

End PostingOff.

Lemma posting_off_sends_nothing_witness :
  ENABLE_POSTING (small_world false (Some 9%nat)) = false
  ∧ posts (paragraph_based_storytelling (cc := ascii_classes)
             (small_world false (Some 9%nat)) 3 None DEFAULT_DELAY
             (start (small_world false (Some 9%nat)))).2
    = [].
Proof.
  split; [reflexivity|].
  apply (posting_off_sends_nothing (cc := ascii_classes)
           (small_world false (Some 9%nat)) DEFAULT_DELAY eq_refl 3 None).
Defined.

(** ** What a round shows *)



(** ** The command line *)

(** X13: whatever the command line, after the main block has updated the
    globals from their defaults the Authorization header is "Bearer "
    followed by the token in force, the Content-Type header is untouched
    and there is no other header; posting is on exactly when
    --disable-posting was not given; and an empty URL or token argument
    leaves the default in place. *)
Theorem headers_follow_the_token (a : Main.args) :
  Main.HEADERS (Main.configure a Main.defaults)
  = {[ str_of "Content-Type" := str_of "application/json";
       str_of "Authorization"
         := Main.bearer (Main.AUTH_TOKEN (Main.configure a Main.defaults)) ]}
  ∧ Main.ENABLE_POSTING (Main.configure a Main.defaults)
    = negb (Main.disable_posting a)
  ∧ Main.OLLAMA_URL (Main.configure a Main.defaults)
    = (if Main.truthy (Main.ollama_url a) then Main.ollama_url a
       else Main.OLLAMA_URL Main.defaults)
  ∧ Main.POST_URL (Main.configure a Main.defaults) = Main.post_url a
  ∧ Main.AUTH_TOKEN (Main.configure a Main.defaults) = Main.auth_token a.
Proof.
  destruct a as [tm dl md url off purl tok]. unfold Main.configure.
  cbn [Main.ollama_url Main.disable_posting Main.post_url Main.auth_token].
  destruct url as [|u url], off, purl as [|p purl], tok as [|k tok];
    cbn [Main.truthy Main.HEADERS Main.ENABLE_POSTING Main.OLLAMA_URL
           Main.POST_URL Main.AUTH_TOKEN Main.defaults negb];
    (split_and!; [|done..]);
    first [ done
          | apply map_eq; intros i;
            destruct (decide (i = str_of "Authorization")) as [->|Hi];
            [ by rewrite lookup_insert_eq, lookup_insert_ne, lookup_insert_eq
            | rewrite lookup_insert_ne by done;
              destruct (decide (i = str_of "Content-Type")) as [->|Hj];
              [ by rewrite !lookup_insert_eq
              | by rewrite !lookup_insert_ne, lookup_empty ] ] ].
Qed.
